(** * Quantization tutorial: the clip / scale / round / dequantize transform

    Shallow embedding of the arithmetic core of
    [tutorials/quantization_tutorial.ipynb]: the step-by-step cells
    ([stepsize], [y_scaled], [y_int]), the function [simpleQuantizer] and
    the body of the "sym Q / asym Q" comparison loop ([yq_i]).

    Two models are given.  In the first one numbers are exact rationals
    ([Q]): it describes the transform in ideal arithmetic, without rounding
    and without overflow.  The second one, module [IEEE], runs
    [simpleQuantizer] on binary32 tensors with binary64 Python scalars and
    the symmetric branch of the loop on binary64 arrays, every operation
    rounded to nearest even as the runtimes do.  A tensor is the list of its
    elements; every operation of the notebook is elementwise, so the shape
    plays no role. *)

From Stdlib Require Import QArith Qround Qabs Qminmax Qpower Qreduction.
From Stdlib Require Import ZArith List Bool Lia Lqa.
From Stdlib Require Import Sorted.
From Stdlib Require Import SpecFloat.
Import ListNotations.

Open Scope Q_scope.

(** ** Outcomes of a Python computation *)

Inductive py_exception : Type :=
| ZeroDivisionError
| ValueError
| OverflowError.

(** A cell either returns a value, raises, or (numpy and torch divide by
    zero without raising) produces [inf]/[nan] entries, which the rational
    model does not represent. *)
Inductive outcome (A : Type) : Type :=
| Returned (a : A)
| Raised (e : py_exception)
| NonFinite.

Arguments Returned {A} a.
Arguments Raised {A} e.
Arguments NonFinite {A}.

Definition bind {A B : Type} (m : outcome A) (k : A -> outcome B) : outcome B :=
  match m with
  | Returned a => k a
  | Raised e => Raised e
  | NonFinite => NonFinite
  end.

Notation "x <- m ;; k" := (bind m (fun x => k))
  (at level 61, m at next level, right associativity).

Definition tensor : Type := list Q.

(** ** Primitives of the numeric runtimes *)

Module Runtime.

(** [a / b] on Python floats and ints: a zero divisor raises. *)
Definition py_div (a b : Q) : outcome Q :=
  if Qeq_bool b 0 then Raised ZeroDivisionError else Returned (a / b).

(** [a / b] on numpy scalars: a zero divisor yields [inf] or [nan]. *)
Definition np_div (a b : Q) : outcome Q :=
  if Qeq_bool b 0 then NonFinite else Returned (a / b).

(** [t / s] for a tensor (or array) [t] and a scalar [s]. *)
Definition tensor_div (t : tensor) (s : Q) : outcome tensor :=
  match t with
  | [] => Returned []
  | _ :: _ => if Qeq_bool s 0 then NonFinite else Returned (map (fun x => x / s) t)
  end.

Definition tensor_sub (t : tensor) (s : Q) : tensor := map (fun x => x - s) t.
Definition tensor_add (t : tensor) (s : Q) : tensor := map (fun x => x + s) t.
Definition tensor_mul (t : tensor) (s : Q) : tensor := map (fun x => x * s) t.

(** [torch.clamp(x, lo, hi)] and [np.clip(x, lo, hi)] on one element:
    [min(max(x, lo), hi)], also when [lo > hi]. *)
Definition clamp1 (x lo hi : Q) : Q := Qmin (Qmax x lo) hi.

Definition clamp (t : tensor) (lo hi : Q) : tensor :=
  map (fun x => clamp1 x lo hi) t.

(** [torch.round] and [np.round] on one element, as an integer: round to
    the nearest integer, a tie going to the even neighbour. *)
Definition round_code (q : Q) : Z :=
  let f := Qfloor q in
  match Qcompare (q - inject_Z f) (1 # 2) with
  | Lt => f
  | Gt => (f + 1)%Z
  | Eq => if Z.even f then f else (f + 1)%Z
  end.

(** The runtimes return the rounded value in the floating type. *)
Definition round1 (q : Q) : Q := inject_Z (round_code q).

Definition round (t : tensor) : tensor := map round1 t.

(** [np.min]: raises on an empty array. *)
Definition np_min (t : tensor) : outcome Q :=
  match t with
  | [] => Raised ValueError
  | x :: r => Returned (fold_left Qmin r x)
  end.

(** Python's builtin [max(a, b)]: the first argument unless the second is
    strictly larger.  The flag tells which one was returned. *)
Definition py_max (a b : Q) : Q * bool :=
  match Qcompare a b with
  | Lt => (b, true)
  | _ => (a, false)
  end.

(** [tensor.unique()]: the distinct values of a tensor.  torch returns
    them sorted; the order is not modelled, only their number is used. *)
Fixpoint unique (t : tensor) : tensor :=
  match t with
  | [] => []
  | x :: r =>
      let u := unique r in
      if existsb (Qeq_bool x) u then u else x :: u
  end.

(** [np.max]: raises on an empty array. *)
Definition np_max (t : tensor) : outcome Q :=
  match t with
  | [] => Raised ValueError
  | x :: r => Returned (fold_left Qmax r x)
  end.

Definition tensor_sum (t : tensor) : Q := fold_right Qplus 0 t.

(** [np.mean] and the ['mean'] reduction of torch: the mean of an empty
    array is [nan]. *)
Definition np_mean (t : tensor) : outcome Q :=
  match t with
  | [] => NonFinite
  | _ :: _ => Returned (tensor_sum t / inject_Z (Z.of_nat (length t)))
  end.

(** [(a - b) ** 2] for two arrays of the same shape, the only way the
    notebook uses it: the second operand is always computed elementwise
    from the first. *)
Definition sq_diff (a b : tensor) : tensor :=
  map (fun p => (fst p - snd p) ^ 2) (combine a b).

(** [np.logical_or(a > hi, a < lo)]. *)
Definition outside (lo hi x : Q) : bool :=
  negb (Qle_bool x hi) || negb (Qle_bool lo x).

(** [np.where(mask)[0]]: the positions of the true entries, in order. *)
Fixpoint where_from (i : nat) (mask : list bool) : list nat :=
  match mask with
  | [] => []
  | b :: r => if b then i :: where_from (S i) r else where_from (S i) r
  end.

Definition np_where (mask : list bool) : list nat := where_from 0 mask.

(** [t[idx]] for an index array.  numpy raises on an index out of range;
    the index arrays of the notebook come from [np.where] on an array of
    the same length, so the default below is never used. *)
Definition take (t : tensor) (idx : list nat) : tensor :=
  map (fun i => nth i t 0) idx.

End Runtime.

Import Runtime.

(** ** The step-by-step cells

    From here to the end of the exact model every quotient is the exact
    rational one: nothing is rounded and no conversion overflows.  What
    the floating-point run adds (rounded quotients, [inf] and [nan], the
    [OverflowError] of an int too large for a float) is in module
    [IEEE]. *)

(** [zp = clip_min; stepsize = (clip_max - zp) / (2 ** n_bit - 1)].  The
    bounds are Python floats and [n_bit] a Python int, so this is a Python
    division. *)
Definition stepsize (n_bit : Z) (clip_min clip_max : Q) : outcome Q :=
  let zp := clip_min in
  py_div (clip_max - zp) (2 ^ n_bit - 1).

(** [y_scaled = (clamp(input, clip_min, clip_max) - clip_min) / stepsize]. *)
Definition y_scaled (input : tensor) (clip_min clip_max step : Q) : outcome tensor :=
  tensor_div (tensor_sub (clamp input clip_min clip_max) clip_min) step.

(** [y_int = round(y_scaled)]. *)
Definition y_int (scaled : tensor) : tensor := round scaled.

(** ** [simpleQuantizer] *)

Definition simpleQuantizer (input : tensor) (n_bit : Z) (clip_min clip_max : Q)
  : outcome tensor :=
  let zp := clip_min in
  step <- stepsize n_bit clip_min clip_max ;;
  scaled <- y_scaled input clip_min clip_max step ;;
  let codes := y_int scaled in
  Returned (tensor_add (tensor_mul codes step) zp).

(** ** The comparison loop: symmetric and asymmetric quantization *)

(** Parameters chosen by one iteration of the loop. *)
Record qparams : Type := mk_qparams {
  clip_min_i : Q;
  nbins : Q;
  scale : Q;
  zp : Q
}.

(** The [if 'asym Q' in lbl_i] branch. *)
Definition asym_params (raw_i : tensor) (n_bit : Z) (clip_max : Q) : outcome qparams :=
  m <- np_min raw_i ;;
  let nb := 2 ^ n_bit - 1 in
  sc <- np_div (clip_max - m) nb ;;
  r <- np_div (- m) sc ;;
  Returned (mk_qparams m nb sc (round1 r)).

(** The [else] branch.  [np.abs] returns a numpy scalar and [max] one of
    its two arguments, so the division is a Python one exactly when [max]
    returned the Python float [clip_max]. *)
Definition sym_params (n_bit : Z) (clip_min clip_max : Q) : outcome qparams :=
  let '(mx, is_np) := py_max clip_max (Qabs clip_min) in
  let lo := - mx in
  let nb := 2 ^ n_bit - 2 in
  sc <- (if is_np then np_div else py_div) (clip_max - lo) nb ;;
  Returned (mk_qparams lo nb sc 0).

(** The code after the branch: [y_int_i], then [yq_i]. *)
Definition y_int_i (p : qparams) (raw_i : tensor) (clip_min clip_max : Q) : outcome tensor :=
  scaled <- tensor_div (tensor_sub (clamp raw_i clip_min clip_max) (zp p)) (scale p) ;;
  Returned (round scaled).

Definition yq_of (p : qparams) (raw_i : tensor) (clip_min clip_max : Q) : outcome tensor :=
  codes <- y_int_i p raw_i clip_min clip_max ;;
  Returned (tensor_add (tensor_mul codes (scale p)) (zp p)).

Definition yq_i (asymQ : bool) (raw_i : tensor) (n_bit : Z) (clip_min clip_max : Q)
  : outcome tensor :=
  p <- (if asymQ then asym_params raw_i n_bit clip_max
        else sym_params n_bit clip_min clip_max) ;;
  yq_of p raw_i clip_min clip_max.

(** The symmetric quantizer is the loop body on its [else] branch. *)
Definition symQuantizer (input : tensor) (n_bit : Z) (clip_min clip_max : Q)
  : outcome tensor :=
  yq_i false input n_bit clip_min clip_max.

(** ** The scalar kernel shared by the two quantizers

    [quant1 step z lo hi x] is what one element [x] becomes: clamp, shift
    by the zero point [z], divide by the step, round, scale back. *)

Definition code1 (step z lo hi x : Q) : Z :=
  round_code ((clamp1 x lo hi - z) / step).

Definition quant1 (step z lo hi x : Q) : Q :=
  inject_Z (code1 step z lo hi x) * step + z.

(** ** The algorithm as the specification words it

    Section 4.1, asymmetric mode, steps 1 to 6, for one element.  The
    rounding of step 5 is a parameter: the specification asks for a
    round-to-nearest and leaves the tie-breaking rule to be chosen. *)

Module Spec.

Section Steps.

Variable round_to_nearest : Q -> Z.
Variables (bit_width : Z) (clip_lower clip_upper : Q).

Definition zero_point : Q := clip_lower.

Definition step_size : Q := (clip_upper - zero_point) / (2 ^ bit_width - 1).

(** Values below [clip_lower] become [clip_lower], values above
    [clip_upper] become [clip_upper], the others pass through. *)
Definition clamped (x : Q) : Q :=
  match Qcompare x clip_lower with
  | Lt => clip_lower
  | _ => match Qcompare x clip_upper with
         | Gt => clip_upper
         | _ => x
         end
  end.

Definition scaled (x : Q) : Q := (clamped x - zero_point) / step_size.

Definition code (x : Q) : Z := round_to_nearest (scaled x).

Definition output (x : Q) : Q := inject_Z (code x) * step_size + zero_point.

End Steps.

(** Round half away from zero, the tie-breaking rule the specification
    names as the reference behaviour. *)
Definition round_half_away (q : Q) : Z :=
  match Qcompare q 0 with
  | Lt => (- Qfloor (- q + (1 # 2)))%Z
  | _ => Qfloor (q + (1 # 2))
  end.

End Spec.

(** Elementwise equality of tensors in [Q]. *)
Definition tensor_eq (a b : tensor) : Prop := Forall2 Qeq a b.

(** Number of distinct values of a tensor. *)
Definition distinct_count (t : tensor) : Z := Z.of_nat (length (unique t)).

(** ** The clipping cells *)

(** [clipped_data = np.clip(raw_data, clip_min, clip_max)]. *)
Definition clipped_data (raw_data : tensor) (clip_min clip_max : Q) : tensor :=
  clamp raw_data clip_min clip_max.

(** [np.mean((raw_data - clipped_data) ** 2)]. *)
Definition clip_mse (raw_data : tensor) (clip_min clip_max : Q) : outcome Q :=
  np_mean (sq_diff raw_data (clipped_data raw_data clip_min clip_max)).

(** [isClipped] and [idx_clipped_elements]. *)
Definition isClipped (raw_data : tensor) (clip_min clip_max : Q) : list bool :=
  map (outside clip_min clip_max) raw_data.

Definition idx_clipped_elements (raw_data : tensor) (clip_min clip_max : Q)
  : list nat :=
  np_where (isClipped raw_data clip_min clip_max).

(** The data frame of the first five clipped elements, column by column. *)
Record frame : Type := mk_frame {
  col_idx : list nat;
  col_raw : tensor;
  col_clipped : tensor
}.

Definition clipped_frame (raw_data : tensor) (clip_min clip_max : Q) : frame :=
  let idx := firstn 5 (idx_clipped_elements raw_data clip_min clip_max) in
  mk_frame idx (take raw_data idx)
           (take (clipped_data raw_data clip_min clip_max) idx).

(** ** The dequantization cell: [yq = y_int * stepsize + zp] *)

Definition yq (codes : tensor) (step zp : Q) : tensor :=
  tensor_add (tensor_mul codes step) zp.

(** ** [max_bin_i], the annotated upper bound of the loop

    [np.round((clip_max - zp) / scale) * scale + zp].  In the asymmetric
    branch, and in the symmetric one when [max] returned the numpy scalar,
    [scale] is a numpy scalar and the division a numpy one. *)
Definition max_bin_i (asymQ : bool) (raw_i : tensor) (n_bit : Z)
  (clip_min clip_max : Q) : outcome Q :=
  p <- (if asymQ then asym_params raw_i n_bit clip_max
        else sym_params n_bit clip_min clip_max) ;;
  r <- (if asymQ || snd (py_max clip_max (Qabs clip_min))
        then np_div else py_div) (clip_max - zp p) (scale p) ;;
  Returned (round1 r * scale p + zp p).

(** ** The error measure of [PlotAndCompare]

    [mse = nn.functional.mse_loss(d1, d2, reduction='mean')]. *)
Definition mse_loss (d1 d2 : tensor) : outcome Q := np_mean (sq_diff d1 d2).

(** * The same code in IEEE 754 arithmetic

    Python floats and numpy arrays are binary64, the tensors of
    [torch.randn] are binary32; a Python scalar that meets a binary32
    tensor is first rounded to binary32.  Every operation is the correctly
    rounded one of the standard library's [SpecFloat]. *)

Module IEEE.

Definition float : Type := spec_float.

Section Format.

Variables prec emax : Z.

(** An integer, rounded to the format. *)
Definition of_Z (z : Z) : float := binary_normalize prec emax z 0 false.

(** The decimal literal [p / q], for [p] and [q] exact in the format. *)
Definition of_ratio (p q : Z) : float := SFdiv prec emax (of_Z p) (of_Z q).

(** A float of a wider format, rounded to this one. *)
Definition cast (x : float) : float :=
  match x with
  | S754_finite s m e => binary_normalize prec emax (cond_Zopp s (Zpos m)) e s
  | _ => x
  end.

(** [round]: to the nearest integer, ties to even, the sign kept. *)
Definition rint (x : float) : float :=
  match x with
  | S754_finite s m (Zneg k) =>
      let d := (2 ^ Zpos k)%Z in
      let q := (Zpos m / d)%Z in
      let r := (Zpos m mod d)%Z in
      let n := match (2 * r ?= d)%Z with
               | Lt => q
               | Gt => (q + 1)%Z
               | Eq => if Z.even q then q else (q + 1)%Z
               end in
      match n with
      | Z0 => S754_zero s
      | _ => binary_normalize prec emax (cond_Zopp s n) 0 s
      end
  | _ => x
  end.

End Format.

Definition is_nan (x : float) : bool :=
  match x with
  | S754_nan => true
  | _ => false
  end.


(** The exact value of a finite float. *)
Definition to_Q (x : float) : option Q :=
  match x with
  | S754_zero _ => Some 0
  | S754_finite s m e => Some (inject_Z (cond_Zopp s (Zpos m)) * 2 ^ e)
  | _ => None
  end.

(** binary64 and binary32. *)
Definition b64_of_Z : Z -> float := of_Z 53 1024.
Definition b64 : Z -> Z -> float := of_ratio 53 1024.
Definition b64_sub : float -> float -> float := SFsub 53 1024.
Definition b64_add : float -> float -> float := SFadd 53 1024.
Definition b64_mul : float -> float -> float := SFmul 53 1024.
Definition b64_div : float -> float -> float := SFdiv 53 1024.
Definition b64_rint : float -> float := rint 53 1024.

Definition b32_of_Z : Z -> float := of_Z 24 128.
Definition b32_cast : float -> float := cast 24 128.
Definition b32_sub : float -> float -> float := SFsub 24 128.
Definition b32_add : float -> float -> float := SFadd 24 128.
Definition b32_mul : float -> float -> float := SFmul 24 128.
Definition b32_div : float -> float -> float := SFdiv 24 128.
Definition b32_rint : float -> float := rint 24 128.

(** A Python int used as a float: too large an int raises. *)
Definition py_int_to_float (z : Z) : outcome float :=
  match b64_of_Z z with
  | S754_infinity _ => Raised OverflowError
  | f => Returned f
  end.

(** [a / b] on Python floats: a zero divisor raises. *)
Definition py_truediv (a b : float) : outcome float :=
  match b with
  | S754_zero _ => Raised ZeroDivisionError
  | _ => Returned (b64_div a b)
  end.

(** [a / b] on a numpy scalar: a zero divisor gives [inf] or [nan]. *)
Definition np_truediv (a b : float) : outcome float := Returned (b64_div a b).

(** [a / (2 ** n - k)] for a float [a] and the small int [k]: for
    [n >= 0] the divisor is an int, converted when it meets the float;
    for [n < 0] the power is already a float. *)
Definition div_by_pow2_minus (is_np : bool) (a : float) (n k : Z) : outcome float :=
  let div := if is_np then np_truediv else py_truediv in
  if (0 <=? n)%Z then
    d <- py_int_to_float (2 ^ n - k) ;;
    div a d
  else
    div a (b64_sub (binary_normalize 53 1024 1 n false) (b64_of_Z k)).

(** [zp = clip_min; stepsize = (clip_max - zp) / (2 ** n_bit - 1)]. *)
Definition stepsize (n_bit : Z) (clip_min clip_max : float) : outcome float :=
  let zp := clip_min in
  div_by_pow2_minus false (b64_sub clip_max zp) n_bit 1.

(** [torch.clamp] on one binary32 element: [min(max(x, lo), hi)], a [nan]
    passing through. *)
Definition clamp1 (x lo hi : float) : float :=
  if is_nan x then x
  else
    let m := if SFltb x lo then lo else x in
    if SFltb hi m then hi else m.

(** [simpleQuantizer] on a binary32 tensor with Python float bounds. *)
Definition simpleQuantizer (input : list float) (n_bit : Z)
  (clip_min clip_max : float) : outcome (list float) :=
  let zp := clip_min in
  step <- stepsize n_bit clip_min clip_max ;;
  let y_scaled :=
    map (fun x => b32_div (b32_sub (clamp1 x (b32_cast clip_min) (b32_cast clip_max))
                                   (b32_cast clip_min))
                          (b32_cast step)) input in
  let y_int := map b32_rint y_scaled in
  Returned (map (fun k => b32_add (b32_mul k (b32_cast step)) (b32_cast zp)) y_int).

(** [np.clip] on one binary64 element. *)
Definition np_clip1 (x lo hi : float) : float :=
  let m := if is_nan x || SFltb lo x then x else lo in
  if is_nan m || SFltb m hi then m else hi.

(** The symmetric branch of the loop on a binary64 array:
    [clip_min_i = -max(clip_max, np.abs(clip_min))],
    [scale = (clip_max - clip_min_i) / (2 ** n_bit - 2)], [zp = 0]. *)
Definition sym_scale (n_bit : Z) (clip_min clip_max : float) : outcome float :=
  let a := SFabs clip_min in
  let is_np := SFltb clip_max a in
  let clip_min_i := SFopp (if is_np then a else clip_max) in
  div_by_pow2_minus is_np (b64_sub clip_max clip_min_i) n_bit 2.

Definition sym_y_int (raw_i : list float) (clip_min clip_max scale : float)
  : list float :=
  map (fun x => b64_rint (b64_div (b64_sub (np_clip1 x clip_min clip_max)
                                           (b64_of_Z 0)) scale)) raw_i.

Definition symQuantizer (raw_i : list float) (n_bit : Z)
  (clip_min clip_max : float) : outcome (list float) :=
  scale <- sym_scale n_bit clip_min clip_max ;;
  Returned (map (fun k => b64_add (b64_mul k scale) (b64_of_Z 0))
                (sym_y_int raw_i clip_min clip_max scale)).

(** Number of distinct values of an array of floats. *)
Fixpoint unique (t : list float) : list float :=
  match t with
  | [] => []
  | x :: r =>
      let u := unique r in
      if existsb (SFeqb x) u then u else x :: u
  end.

End IEEE.

(** * Properties of the runtime primitives *)

Section Rounding.

Lemma inject_Z_succ (k : Z) : inject_Z (k + 1) == inject_Z k + 1.
Proof. rewrite inject_Z_plus. reflexivity. Qed.

Lemma Qfloor_bounds (q : Q) :
  inject_Z (Qfloor q) <= q /\ q < inject_Z (Qfloor q) + 1.
Proof.
  split; [apply Qfloor_le|].
  rewrite <- inject_Z_succ. apply Qlt_floor.
Qed.

Lemma Qfloor_unique (q : Q) (k : Z) :
  inject_Z k <= q -> q < inject_Z k + 1 -> Qfloor q = k.
Proof.
  intros Hlo Hhi.
  destruct (Qfloor_bounds q) as [Fl Fh].
  assert (L1 : (k < Qfloor q + 1)%Z).
  { rewrite Zlt_Qlt, inject_Z_succ. lra. }
  assert (L2 : (Qfloor q < k + 1)%Z).
  { rewrite Zlt_Qlt, inject_Z_succ. lra. }
  lia.
Qed.

Lemma Qfloor_eq (q r : Q) : q == r -> Qfloor q = Qfloor r.
Proof.
  intros E. apply Qfloor_unique; rewrite E; apply Qfloor_bounds.
Qed.

Lemma round_code_eq (q r : Q) : q == r -> round_code q = round_code r.
Proof.
  intros E. unfold round_code.
  rewrite (Qfloor_eq q r E).
  assert (C : Qcompare (q - inject_Z (Qfloor r)) (1 # 2)
              = Qcompare (r - inject_Z (Qfloor r)) (1 # 2)).
  { apply Qcompare_comp; [rewrite E|]; reflexivity. }
  rewrite C. reflexivity.
Qed.

(** The rounded value is within one half of the argument. *)
Lemma round_code_near (q : Q) :
  inject_Z (round_code q) - (1 # 2) <= q /\ q <= inject_Z (round_code q) + (1 # 2).
Proof.
  unfold round_code.
  destruct (Qfloor_bounds q) as [Fl Fh].
  destruct (Qcompare_spec (q - inject_Z (Qfloor q)) (1 # 2)) as [E | L | G].
  - destruct (Z.even (Qfloor q)); rewrite ?inject_Z_succ; lra.
  - lra.
  - rewrite inject_Z_succ. lra.
Qed.

(** Integers are left alone. *)
Lemma round_code_Z (k : Z) : round_code (inject_Z k) = k.
Proof.
  unfold round_code. rewrite Qfloor_Z.
  destruct (Qcompare_spec (inject_Z k - inject_Z k) (1 # 2)) as [E | L | G];
    [lra | reflexivity | lra].
Qed.

Lemma round_code_mono (q r : Q) : q <= r -> (round_code q <= round_code r)%Z.
Proof.
  intros L.
  destruct (Z_le_gt_dec (round_code q) (round_code r)) as [ok | bad]; [exact ok|].
  exfalso.
  assert (B : inject_Z (round_code r) + 1 <= inject_Z (round_code q)).
  { rewrite <- inject_Z_succ, <- Zle_Qle. lia. }
  destruct (round_code_near q) as [Ql _], (round_code_near r) as [_ Rh].
  assert (E : q == r) by lra.
  rewrite (round_code_eq q r E) in bad. lia.
Qed.

(** Ties go to the even neighbour. *)
Lemma round_code_tie (q : Q) (k : Z) :
  q == inject_Z k + (1 # 2) ->
  round_code q = if Z.even k then k else (k + 1)%Z.
Proof.
  intros E.
  assert (F : Qfloor q = k) by (apply Qfloor_unique; lra).
  unfold round_code. rewrite F.
  destruct (Qcompare_spec (q - inject_Z k) (1 # 2)) as [_ | L | G];
    [reflexivity | lra | lra].
Qed.

Lemma round_code_tie_even (q : Q) (k : Z) :
  q == inject_Z k + (1 # 2) -> Z.even (round_code q) = true.
Proof.
  intros E. rewrite (round_code_tie q k E).
  destruct (Z.even k) eqn:Ek; [exact Ek|].
  rewrite Z.even_add, Ek. reflexivity.
Qed.

(** Shifting by an even integer commutes with rounding. *)
Lemma round_code_add_even (q : Q) (m : Z) :
  round_code (q + inject_Z (2 * m)) = (round_code q + 2 * m)%Z.
Proof.
  destruct (Qfloor_bounds q) as [Fl Fh].
  assert (F : Qfloor (q + inject_Z (2 * m)) = (Qfloor q + 2 * m)%Z).
  { apply Qfloor_unique; rewrite inject_Z_plus; lra. }
  unfold round_code. rewrite F.
  assert (C : Qcompare (q + inject_Z (2 * m) - inject_Z (Qfloor q + 2 * m)) (1 # 2)
              = Qcompare (q - inject_Z (Qfloor q)) (1 # 2)).
  { apply Qcompare_comp; [rewrite inject_Z_plus; ring | reflexivity]. }
  rewrite C.
  assert (P : Z.even (Qfloor q + 2 * m) = Z.even (Qfloor q)).
  { rewrite Z.even_add, Z.even_mul. simpl. destruct (Z.even (Qfloor q)); reflexivity. }
  rewrite P.
  destruct (Qcompare (q - inject_Z (Qfloor q)) (1 # 2));
    [destruct (Z.even (Qfloor q))| |]; lia.
Qed.

End Rounding.

Section Clamp.

Variables lo hi : Q.

Lemma clamp1_in_range (x : Q) : lo <= hi -> lo <= clamp1 x lo hi <= hi.
Proof.
  intros H. unfold clamp1.
  split.
  - apply Q.min_glb; [apply Q.le_max_r | exact H].
  - apply Q.le_min_r.
Qed.

Lemma clamp1_id (x : Q) : lo <= x <= hi -> clamp1 x lo hi == x.
Proof.
  intros [L U]. unfold clamp1.
  rewrite (Q.max_l x lo L). apply Q.min_l. exact U.
Qed.

Lemma clamp1_mono (x y : Q) : x <= y -> clamp1 x lo hi <= clamp1 y lo hi.
Proof.
  intros L. unfold clamp1.
  apply Q.min_le_compat_r, Q.max_le_compat_r, L.
Qed.

(** With reversed bounds every element becomes the upper bound. *)
Lemma clamp1_reversed (x : Q) : hi < lo -> clamp1 x lo hi == hi.
Proof.
  intros R. unfold clamp1. apply Q.min_r.
  apply Qle_trans with lo; [lra | apply Q.le_max_r].
Qed.

End Clamp.

Section PowersOfTwo.

Lemma inject_Z_ge1 (k : Z) : (1 <= k)%Z -> 1 <= inject_Z k.
Proof.
  intros H. change 1 with (inject_Z 1). rewrite <- Zle_Qle. exact H.
Qed.

Lemma pow2_inject (n : Z) : (0 <= n)%Z -> 2 ^ n == inject_Z (2 ^ n).
Proof.
  intros H. rewrite (Zpower_Qpower 2 n H). reflexivity.
Qed.

Lemma pow2_ge (n k : Z) : (k <= n)%Z -> (0 <= k)%Z -> (2 ^ k <= 2 ^ n)%Z.
Proof.
  intros H K. apply Z.pow_le_mono_r; lia.
Qed.

Lemma pow2_minus_1 (n : Z) : (1 <= n)%Z ->
  2 ^ n - 1 == inject_Z (2 ^ n - 1) /\ (1 <= 2 ^ n - 1)%Z.
Proof.
  intros H. split.
  - rewrite pow2_inject by lia.
    unfold Z.sub. rewrite inject_Z_plus. reflexivity.
  - pose proof (pow2_ge n 1 H ltac:(lia)) as P.
    change (2 ^ 1)%Z with 2%Z in P. lia.
Qed.

Lemma pow2_minus_2 (n : Z) : (2 <= n)%Z ->
  2 ^ n - 2 == inject_Z (2 * (2 ^ (n - 1) - 1)) /\ (1 <= 2 ^ (n - 1) - 1)%Z.
Proof.
  intros H. split.
  - assert (E : (2 * (2 ^ (n - 1) - 1) = 2 ^ n + - (2))%Z).
    { replace n with (1 + (n - 1))%Z at 2 by lia.
      rewrite Z.pow_add_r by lia. change (2 ^ 1)%Z with 2%Z. lia. }
    rewrite E, inject_Z_plus, <- pow2_inject by lia. reflexivity.
  - apply (pow2_minus_1 (n - 1)). lia.
Qed.

(** [2 ** n_bit] is [1] only for [n_bit = 0]. *)
Lemma pow2_neq_1 (n : Z) : n <> 0%Z -> ~ 2 ^ n - 1 == 0.
Proof.
  intros H E.
  destruct (Z_lt_le_dec n 0) as [neg | pos].
  - assert (P : (1 <= - n)%Z) by lia.
    destruct (pow2_minus_1 (- n) P) as [I G].
    assert (O : 2 ^ n == / (2 ^ (- n))).
    { rewrite <- (Qpower_opp 2 (- n)), Z.opp_involutive. reflexivity. }
    pose proof (inject_Z_ge1 _ G) as B.
    assert (U : 2 ^ n * 2 ^ (- n) == 1).
    { rewrite O. rewrite Qmult_comm. apply Qmult_inv_r. lra. }
    assert (V : 2 ^ n == 1) by lra.
    rewrite V in U. lra.
  - destruct (pow2_minus_1 n ltac:(lia)) as [I G].
    pose proof (inject_Z_ge1 _ G) as B.
    lra.
Qed.

End PowersOfTwo.

(** * The quantizers on valid parameters *)

Lemma Qdiv_cancel (x y : Q) : ~ y == 0 -> x / y * y == x.
Proof. intros H. field. exact H. Qed.

Lemma Qeq_bool_false (a b : Q) : ~ a == b -> Qeq_bool a b = false.
Proof.
  intros H. destruct (Qeq_bool a b) eqn:E; [|reflexivity].
  exfalso. apply H, Qeq_bool_eq, E.
Qed.

Lemma tensor_div_returns (t : tensor) (s : Q) :
  ~ s == 0 -> tensor_div t s = Returned (map (fun x => x / s) t).
Proof.
  intros H. unfold tensor_div.
  destruct t; [reflexivity|].
  rewrite (Qeq_bool_false s 0 H). reflexivity.
Qed.

(** The pipeline on a tensor is the kernel on each element. *)
Lemma pipeline_map (t : tensor) (step z lo hi : Q) :
  tensor_add (tensor_mul (round (map (fun x => x / step)
     (tensor_sub (clamp t lo hi) z))) step) z
  = map (quant1 step z lo hi) t.
Proof.
  unfold tensor_add, tensor_mul, round, tensor_sub, clamp.
  rewrite !map_map. reflexivity.
Qed.

Lemma simpleQuantizer_kernel (input : tensor) (n_bit : Z) (clip_min clip_max : Q) :
  n_bit <> 0%Z -> ~ clip_max == clip_min ->
  simpleQuantizer input n_bit clip_min clip_max
  = Returned (map (quant1 ((clip_max - clip_min) / (2 ^ n_bit - 1))
                          clip_min clip_min clip_max) input).
Proof.
  intros Hn Hb.
  pose proof (pow2_neq_1 n_bit Hn) as Hp.
  unfold simpleQuantizer, stepsize, py_div.
  rewrite (Qeq_bool_false _ 0 Hp). cbn [bind].
  unfold y_scaled.
  rewrite tensor_div_returns.
  - cbn [bind]. unfold y_int. rewrite pipeline_map. reflexivity.
  - intros E. apply Hb.
    assert (M : (clip_max - clip_min) / (2 ^ n_bit - 1) * (2 ^ n_bit - 1)
                == clip_max - clip_min) by (apply Qdiv_cancel; exact Hp).
    rewrite E in M. lra.
Qed.

Section Kernel.

Variables step z lo hi : Q.
Hypothesis step_pos : 0 < step.

Lemma Qdiv_le_mono (a b : Q) : a <= b -> a / step <= b / step.
Proof.
  intros L. unfold Qdiv. apply Qmult_le_compat_r; [exact L|].
  apply Qlt_le_weak, Qinv_lt_0_compat, step_pos.
Qed.

Lemma step_neq_0 : ~ step == 0.
Proof. intros E. rewrite E in step_pos. lra. Qed.

Lemma code1_mono (x y : Q) :
  x <= y -> (code1 step z lo hi x <= code1 step z lo hi y)%Z.
Proof.
  intros L. unfold code1.
  apply round_code_mono, Qdiv_le_mono.
  pose proof (clamp1_mono lo hi x y L). lra.
Qed.

Lemma quant1_mono (x y : Q) :
  x <= y -> quant1 step z lo hi x <= quant1 step z lo hi y.
Proof.
  intros L. unfold quant1.
  pose proof (code1_mono x y L) as C. rewrite Zle_Qle in C.
  assert (M : inject_Z (code1 step z lo hi x) * step
              <= inject_Z (code1 step z lo hi y) * step).
  { apply Qmult_le_compat_r; [exact C | lra]. }
  lra.
Qed.

(** The codes of the two clip bounds enclose every code. *)
Lemma code1_between (x : Q) : lo <= hi ->
  (round_code ((lo - z) / step) <= code1 step z lo hi x
   <= round_code ((hi - z) / step))%Z.
Proof.
  intros H. unfold code1.
  destruct (clamp1_in_range lo hi x H) as [L U].
  split; apply round_code_mono, Qdiv_le_mono; lra.
Qed.

(** An element inside the clip range moves by at most half a step. *)
Lemma quant1_error (x : Q) :
  lo <= x <= hi -> Qabs (quant1 step z lo hi x - x) <= step / 2.
Proof.
  intros R.
  pose proof (clamp1_id lo hi x R) as C.
  unfold quant1, code1.
  set (s := (clamp1 x lo hi - z) / step).
  assert (S : s * step == x - z).
  { unfold s. rewrite Qdiv_cancel by exact step_neq_0. rewrite C. reflexivity. }
  destruct (round_code_near s) as [N1 N2].
  set (k := inject_Z (round_code s)) in *.
  assert (D : k * step + z - x == (k - s) * step).
  { setoid_replace ((k - s) * step) with (k * step - s * step) by ring.
    rewrite S. ring. }
  rewrite D. apply Qabs_Qle_condition.
  assert (A : (k - s) * step <= (1 # 2) * step).
  { apply Qmult_le_compat_r; lra. }
  assert (B : (- (1 # 2)) * step <= (k - s) * step).
  { apply Qmult_le_compat_r; lra. }
  assert (H2 : step / 2 == (1 # 2) * step) by (field).
  rewrite H2. lra.
Qed.

(** A value that sits on level [k] inside the clip range has code [k]. *)
Lemma code1_level (y : Q) (k : Z) :
  lo <= y <= hi -> y == inject_Z k * step + z -> code1 step z lo hi y = k.
Proof.
  intros R E. unfold code1.
  transitivity (round_code (inject_Z k)); [|apply round_code_Z].
  apply round_code_eq.
  rewrite (clamp1_id lo hi y R), E.
  field. exact step_neq_0.
Qed.

End Kernel.

Section Asymmetric.

Variables (n_bit : Z) (clip_min clip_max : Q).
Hypothesis bits_valid : (1 <= n_bit)%Z.
Hypothesis bounds_valid : clip_min < clip_max.

Let step : Q := (clip_max - clip_min) / (2 ^ n_bit - 1).
Let top : Z := (2 ^ n_bit - 1)%Z.

Lemma asym_top : 2 ^ n_bit - 1 == inject_Z top /\ 1 <= inject_Z top.
Proof.
  destruct (pow2_minus_1 n_bit bits_valid) as [E G].
  split; [exact E | apply inject_Z_ge1, G].
Qed.

Lemma asym_step_pos : 0 < step.
Proof.
  destruct asym_top as [E G]. unfold step. rewrite E.
  apply Qlt_shift_div_l; lra.
Qed.

Lemma asym_step_total : inject_Z top * step == clip_max - clip_min.
Proof.
  destruct asym_top as [E G]. unfold step. rewrite E.
  field. lra.
Qed.

Lemma asym_code_range (x : Q) :
  (0 <= code1 step clip_min clip_min clip_max x <= top)%Z.
Proof.
  pose proof asym_step_pos as P.
  pose proof (step_neq_0 step P) as NZ.
  destruct (code1_between step clip_min clip_min clip_max P x) as [L U]; [lra|].
  assert (E0 : (clip_min - clip_min) / step == inject_Z 0).
  { unfold Qdiv. setoid_replace (clip_min - clip_min) with 0 by ring. ring. }
  assert (E1 : (clip_max - clip_min) / step == inject_Z top).
  { rewrite <- asym_step_total. field. exact NZ. }
  rewrite (round_code_eq _ _ E0), round_code_Z in L.
  rewrite (round_code_eq _ _ E1), round_code_Z in U.
  lia.
Qed.

Lemma asym_quant_range (x : Q) :
  clip_min <= quant1 step clip_min clip_min clip_max x <= clip_max.
Proof.
  pose proof asym_step_pos as P.
  destruct (asym_code_range x) as [L U].
  rewrite Zle_Qle in L, U.
  unfold quant1.
  set (k := inject_Z (code1 step clip_min clip_min clip_max x)) in *.
  assert (A : inject_Z 0 * step <= k * step)
    by (apply Qmult_le_compat_r; [exact L | lra]).
  assert (B : k * step <= inject_Z top * step)
    by (apply Qmult_le_compat_r; [exact U | lra]).
  rewrite asym_step_total in B.
  assert (Z0 : inject_Z 0 * step == 0) by ring.
  lra.
Qed.

Lemma simpleQuantizer_valid (input : tensor) :
  simpleQuantizer input n_bit clip_min clip_max
  = Returned (map (quant1 step clip_min clip_min clip_max) input).
Proof.
  apply simpleQuantizer_kernel; [lia | lra].
Qed.


(** The specification's case-by-case clamp is the runtime's min-of-max. *)
Lemma spec_clamped_clamp1 (x : Q) :
  Spec.clamped clip_min clip_max x == clamp1 x clip_min clip_max.
Proof.
  unfold Spec.clamped, clamp1.
  destruct (Qcompare_spec x clip_min) as [E | L | G].
  - destruct (Qcompare_spec x clip_max) as [E' | L' | G']; try lra.
    rewrite Q.max_l, Q.min_l by lra. reflexivity.
  - rewrite Q.max_r, Q.min_l by lra. reflexivity.
  - destruct (Qcompare_spec x clip_max) as [E' | L' | G'].
    + rewrite Q.max_l, Q.min_l by lra. reflexivity.
    + rewrite Q.max_l, Q.min_l by lra. reflexivity.
    + rewrite Q.max_l, Q.min_r by lra. reflexivity.
Qed.

Lemma spec_output_quant1 (x : Q) :
  Spec.output round_code n_bit clip_min clip_max x
  == quant1 step clip_min clip_min clip_max x.
Proof.
  unfold Spec.output, Spec.code, Spec.scaled, Spec.step_size, Spec.zero_point.
  unfold quant1, code1. fold step.
  rewrite (round_code_eq _ ((clamp1 x clip_min clip_max - clip_min) / step)).
  - reflexivity.
  - rewrite spec_clamped_clamp1. reflexivity.
Qed.

End Asymmetric.

(** * Counting the distinct values *)

Section Distinct.

Lemma unique_subset (t : tensor) (y : Q) : In y (unique t) -> In y t.
Proof.
  induction t as [| x r IH]; simpl; [tauto|].
  destruct (existsb (Qeq_bool x) (unique r)); simpl; intuition.
Qed.

Lemma unique_NoDup (t : tensor) : NoDup (map Qred (unique t)).
Proof.
  induction t as [| x r IH]; simpl; [constructor|].
  destruct (existsb (Qeq_bool x) (unique r)) eqn:E; [exact IH|].
  simpl. constructor; [|exact IH].
  intros I. apply in_map_iff in I. destruct I as [y [R I]].
  assert (T : existsb (Qeq_bool x) (unique r) = true).
  { apply existsb_exists. exists y. split; [exact I|].
    apply Qeq_bool_iff, Qred_eq_iff. symmetry. exact R. }
  congruence.
Qed.

(** A tensor whose elements all sit on one of the listed levels has no more
    distinct values than there are levels. *)
Lemma unique_length_le (levels t : tensor) :
  (forall y, In y t -> exists l, In l levels /\ y == l) ->
  (length (unique t) <= length levels)%nat.
Proof.
  intros H.
  rewrite <- (length_map Qred (unique t)), <- (length_map Qred levels).
  apply NoDup_incl_length; [apply unique_NoDup|].
  intros q I. apply in_map_iff in I. destruct I as [y [R I]].
  destruct (H y (unique_subset t y I)) as [l [Il E]].
  apply in_map_iff. exists l. split; [|exact Il].
  rewrite <- R. symmetry. apply Qred_complete, E.
Qed.

(** Codes confined to [c0 .. c0 + span] give at most [span + 1] values. *)
Lemma distinct_count_codes (step z lo hi : Q) (c0 span : Z) (input : tensor) :
  (0 <= span)%Z ->
  (forall x, (c0 <= code1 step z lo hi x <= c0 + span)%Z) ->
  (distinct_count (map (quant1 step z lo hi) input) <= span + 1)%Z.
Proof.
  intros S H. unfold distinct_count.
  set (levels := map (fun i => inject_Z (c0 + Z.of_nat i) * step + z)
                     (seq 0 (Z.to_nat (span + 1)))).
  assert (L : (length (unique (map (quant1 step z lo hi) input))
               <= length levels)%nat).
  { apply unique_length_le. intros y I.
    apply in_map_iff in I. destruct I as [x [E _]].
    exists y. split; [|reflexivity].
    unfold levels. apply in_map_iff.
    exists (Z.to_nat (code1 step z lo hi x - c0)).
    specialize (H x). split.
    - rewrite <- E. unfold quant1.
      replace (c0 + Z.of_nat (Z.to_nat (code1 step z lo hi x - c0)))%Z
        with (code1 step z lo hi x) by lia.
      reflexivity.
    - apply in_seq. lia. }
  unfold levels in L. rewrite length_map, length_seq in L. lia.
Qed.

End Distinct.

(** * The symmetric branch of the loop *)

Lemma fst_py_max (a b : Q) : fst (py_max a b) = Qmax a b.
Proof.
  unfold py_max, Qmax, GenericMinMax.gmax.
  destruct (Qcompare a b); reflexivity.
Qed.

Lemma sym_params_returns (n_bit : Z) (clip_min clip_max : Q) :
  ~ 2 ^ n_bit - 2 == 0 ->
  sym_params n_bit clip_min clip_max
  = Returned (mk_qparams (- Qmax clip_max (Qabs clip_min)) (2 ^ n_bit - 2)
       ((clip_max - - Qmax clip_max (Qabs clip_min)) / (2 ^ n_bit - 2)) 0).
Proof.
  intros H. unfold sym_params.
  rewrite <- fst_py_max.
  destruct (py_max clip_max (Qabs clip_min)) as [mx is_np]. simpl fst.
  destruct is_np; unfold np_div, py_div;
    rewrite (Qeq_bool_false _ 0 H); reflexivity.
Qed.

Section Symmetric.

Variables (n_bit : Z) (clip_min clip_max : Q).
Hypothesis bits_valid : (2 <= n_bit)%Z.
Hypothesis bounds_valid : clip_min < clip_max.

Let low : Q := - Qmax clip_max (Qabs clip_min).
Let sc : Q := (clip_max - low) / (2 ^ n_bit - 2).
Let half : Z := (2 ^ (n_bit - 1) - 1)%Z.

Lemma inject_Z_double (k : Z) : inject_Z (2 * k) == 2 * inject_Z k.
Proof. rewrite inject_Z_mult. reflexivity. Qed.

Lemma sym_bins : 2 ^ n_bit - 2 == 2 * inject_Z half /\ 1 <= inject_Z half.
Proof.
  destruct (pow2_minus_2 n_bit bits_valid) as [E G].
  split; [rewrite <- inject_Z_double; exact E | apply inject_Z_ge1, G].
Qed.

Lemma sym_width_pos : 0 < clip_max - low.
Proof.
  unfold low.
  destruct (Q.max_spec clip_max (Qabs clip_min)) as [[L E] | [L E]]; rewrite E.
  - pose proof (Qle_Qabs (- clip_min)) as A. rewrite Qabs_opp in A. lra.
  - pose proof (Qabs_nonneg clip_min) as A.
    pose proof (Qle_Qabs (- clip_min)) as B. rewrite Qabs_opp in B. lra.
Qed.

Lemma sym_scale_pos : 0 < sc.
Proof.
  destruct sym_bins as [E G]. unfold sc. rewrite E.
  apply Qlt_shift_div_l; [|pose proof sym_width_pos]; lra.
Qed.

Lemma sym_scale_total : 2 * inject_Z half * sc == clip_max - low.
Proof.
  destruct sym_bins as [E G]. unfold sc. rewrite E.
  field. lra.
Qed.

(** The codes of the two clip bounds are at most [2 ^ n_bit - 2] apart. *)
Lemma sym_code_span :
  (round_code ((clip_max - 0) / sc)
   <= round_code ((clip_min - 0) / sc) + 2 * half)%Z.
Proof.
  pose proof sym_scale_pos as P.
  pose proof (step_neq_0 sc P) as NZ.
  pose proof sym_scale_total as T.
  destruct sym_bins as [_ G].
  destruct (Q.max_spec clip_max (Qabs clip_min)) as [[L E] | [L E]].
  - (* the lower bound has the larger magnitude *)
    assert (N : Qabs clip_min == - clip_min).
    { apply Qabs_neg.
      destruct (Qlt_le_dec 0 clip_min) as [pos | nonpos]; [|exact nonpos].
      rewrite Qabs_pos in L by lra. lra. }
    assert (S : (clip_max - 0) / sc == (clip_min - 0) / sc + inject_Z (2 * half)).
    { rewrite inject_Z_double.
      apply (Qmult_inj_r _ _ sc NZ).
      rewrite Qmult_plus_distr_l, !Qdiv_cancel by exact NZ.
      rewrite T. unfold low. rewrite E, N. ring. }
    rewrite (round_code_eq _ _ S), round_code_add_even. lia.
  - (* the upper bound has the larger magnitude *)
    assert (U : (clip_max - 0) / sc == inject_Z half).
    { apply (Qmult_inj_r _ _ sc NZ). rewrite Qdiv_cancel by exact NZ.
      unfold low in T. rewrite E in T. lra. }
    assert (D : inject_Z (- half) <= (clip_min - 0) / sc).
    { apply Qle_shift_div_l; [exact P|].
      rewrite inject_Z_opp.
      pose proof (Qle_Qabs (- clip_min)) as A. rewrite Qabs_opp in A.
      unfold low in T. rewrite E in T. lra. }
    apply round_code_mono in D.
    rewrite round_code_Z in D.
    rewrite (round_code_eq _ _ U), round_code_Z. lia.
Qed.

Lemma symQuantizer_valid (input : tensor) :
  symQuantizer input n_bit clip_min clip_max
  = Returned (map (quant1 sc 0 clip_min clip_max) input).
Proof.
  destruct sym_bins as [E G].
  unfold symQuantizer, yq_i.
  rewrite sym_params_returns by (rewrite E; lra).
  cbn [bind]. unfold yq_of, y_int_i. cbn [zp scale].
  rewrite tensor_div_returns by (apply step_neq_0, sym_scale_pos).
  cbn [bind]. rewrite pipeline_map. reflexivity.
Qed.

End Symmetric.

(** * The claims of the specification *)

Lemma Forall2_map_self (A B : Type) (P : A -> B -> Prop) (f : A -> B)
  (l : list A) :
  (forall x, P x (f x)) -> Forall2 P l (map f l).
Proof.
  intros H. induction l as [| x r IH]; simpl; constructor; [apply H | exact IH].
Qed.

(** ** C1: [simpleQuantizer] is the six-step algorithm *)

Lemma round_code_tie_abs (q : Q) :
  Qabs (inject_Z (round_code q) - q) == 1 # 2 -> Z.even (round_code q) = true.
Proof.
  intros H.
  destruct (Qlt_le_dec q (inject_Z (round_code q))) as [L | L].
  - rewrite Qabs_pos in H by lra.
    apply (round_code_tie_even q (round_code q - 1)).
    unfold Z.sub. rewrite inject_Z_plus.
    change (inject_Z (- (1))) with (-1). lra.
  - rewrite Qabs_neg in H by lra.
    apply (round_code_tie_even q (round_code q)). lra.
Qed.

(** C1, as stated, fails on the floating-point code: with 3 bits, the
    bounds [-3] and [1] and the input [-1] the exact scaled value is the tie
    [3.5], whose code is [4] under either tie rule, so the formula gives
    [-5/7]; in binary32 the quotient falls just below [3.5], the code is
    [3] and the call returns [-1.2857141...], more than half a step
    away. *)
Lemma C1_counterexample :
  exists y q,
    IEEE.simpleQuantizer [IEEE.b32_of_Z (-1)] 3 (IEEE.b64 (-3) 1) (IEEE.b64 1 1)
    = Returned [y] /\
    IEEE.to_Q y = Some q /\
    Spec.output round_code 3 (-3) 1 (-1) == -5 # 7 /\
    Spec.output Spec.round_half_away 3 (-3) 1 (-1) == -5 # 7 /\
    q < -5 # 4 /\
    Spec.step_size 3 (-3) 1 / 2 < Qabs (q - (-5 # 7)).
Proof.
  do 2 eexists.
  split; [vm_compute; reflexivity|].
  split; [reflexivity|].
  split; [vm_compute; reflexivity|].
  split; [vm_compute; reflexivity|].
  split; vm_compute; reflexivity.
Qed.

(** C1, amended.  In exact rational arithmetic, with [bit_width >= 1] and
    [clip_lower < clip_upper], the call returns and every output element
    is the output of steps 1 to 6 of the specification:
    [code * step_size + zero_point], where [zero_point = clip_lower],
    [step_size = (clip_upper - clip_lower) / (2^bit_width - 1)],
    [scaled = (clamp(x, clip_lower, clip_upper) - clip_lower) / step_size]
    and [code] is an integer nearest to [scaled], the even one at a tie. *)
Theorem C1_simpleQuantizer_six_steps
  (input : tensor) (bit_width : Z) (clip_lower clip_upper : Q) :
  (1 <= bit_width)%Z -> clip_lower < clip_upper ->
  exists out,
    simpleQuantizer input bit_width clip_lower clip_upper = Returned out /\
    Forall2 (fun x y =>
      let step_size := Spec.step_size bit_width clip_lower clip_upper in
      let scaled := Spec.scaled bit_width clip_lower clip_upper x in
      step_size == (clip_upper - clip_lower) / (2 ^ bit_width - 1) /\
      scaled == (clamp1 x clip_lower clip_upper - clip_lower) / step_size /\
      exists code : Z,
        Qabs (inject_Z code - scaled) <= 1 # 2 /\
        (Qabs (inject_Z code - scaled) == 1 # 2 -> Z.even code = true) /\
        y == inject_Z code * step_size + Spec.zero_point clip_lower)
      input out.
Proof.
  intros Hn Hb.
  eexists. split; [apply simpleQuantizer_valid; assumption|].
  apply Forall2_map_self. intros x. cbv zeta.
  unfold Spec.scaled, Spec.step_size, Spec.zero_point.
  set (step := (clip_upper - clip_lower) / (2 ^ bit_width - 1)).
  assert (S : (Spec.clamped clip_lower clip_upper x - clip_lower) / step
              == (clamp1 x clip_lower clip_upper - clip_lower) / step).
  { rewrite (spec_clamped_clamp1 clip_lower clip_upper Hb). reflexivity. }
  split; [reflexivity|]. split; [exact S|].
  exists (code1 step clip_lower clip_lower clip_upper x).
  rewrite S. unfold code1.
  split; [|split; [apply round_code_tie_abs | reflexivity]].
  destruct (round_code_near ((clamp1 x clip_lower clip_upper - clip_lower) / step)).
  apply Qabs_Qle_condition. lra.
Qed.

Lemma C1_witness :
  exists out,
    simpleQuantizer [0; 3] 4 (-5 # 2) (5 # 2) = Returned out /\
    Forall2 (fun x y =>
      let step_size := Spec.step_size 4 (-5 # 2) (5 # 2) in
      let scaled := Spec.scaled 4 (-5 # 2) (5 # 2) x in
      step_size == ((5 # 2) - (-5 # 2)) / (2 ^ 4 - 1) /\
      scaled == (clamp1 x (-5 # 2) (5 # 2) - (-5 # 2)) / step_size /\
      exists code : Z,
        Qabs (inject_Z code - scaled) <= 1 # 2 /\
        (Qabs (inject_Z code - scaled) == 1 # 2 -> Z.even code = true) /\
        y == inject_Z code * step_size + Spec.zero_point (-5 # 2))
      [0; 3] out.
Proof.
  apply (C1_simpleQuantizer_six_steps [0; 3] 4 (-5 # 2) (5 # 2)); [lia | lra].
Defined.

(** ** C2: the output stays inside the clip range *)

(** C2, as stated, fails twice.  On the floating-point code the top level
    can land above [clip_upper]: with 4 bits, the bounds [-2.5] and [0.7]
    and the input [3] the binary32 call returns [0.70000005], above the
    Python float [0.7].  And in symmetric mode the levels are not anchored
    at the clip bounds: with 4 bits and the bounds [-1], [2.5] the input
    [-1] comes out below [-1], already in exact arithmetic. *)
Lemma C2_counterexample :
  (exists y q u,
     IEEE.simpleQuantizer [IEEE.b32_of_Z 3] 4 (IEEE.b64 (-5) 2) (IEEE.b64 7 10)
     = Returned [y] /\
     IEEE.to_Q y = Some q /\ IEEE.to_Q (IEEE.b64 7 10) = Some u /\ u < q) /\
  (exists y, symQuantizer [-1] 4 (-1) (5 # 2) = Returned [y] /\ y < -1).
Proof.
  split.
  - do 3 eexists.
    split; [vm_compute; reflexivity|].
    split; [reflexivity|]. split; [reflexivity|].
    vm_compute. reflexivity.
  - eexists. split; [vm_compute; reflexivity | reflexivity].
Qed.

(** C2, amended.  In exact rational arithmetic and in asymmetric mode
    ([simpleQuantizer]), with [bit_width >= 1] and
    [clip_lower < clip_upper], the output has one element per input
    element and each of them lies in [[clip_lower, clip_upper]]. *)
Theorem C2_output_in_clip_range
  (input : tensor) (bit_width : Z) (clip_lower clip_upper : Q) :
  (1 <= bit_width)%Z -> clip_lower < clip_upper ->
  exists out,
    simpleQuantizer input bit_width clip_lower clip_upper = Returned out /\
    Forall2 (fun _ y => clip_lower <= y <= clip_upper) input out.
Proof.
  intros Hn Hb. eexists. split; [apply simpleQuantizer_valid; assumption|].
  apply Forall2_map_self. intros x.
  apply asym_quant_range; assumption.
Qed.

Lemma C2_witness :
  exists out,
    simpleQuantizer [-4; 0; 1 # 3; 3] 4 (-5 # 2) (5 # 2) = Returned out /\
    Forall2 (fun _ y => (-5 # 2) <= y <= (5 # 2)) [-4; 0; 1 # 3; 3] out.
Proof.
  apply (C2_output_in_clip_range [-4; 0; 1 # 3; 3] 4 (-5 # 2) (5 # 2)); [lia | lra].
Defined.

(** The symmetric branch of the loop clamps to [[clip_min, clip_max]] but
    spaces its levels from [clip_min_i]: its output can leave the clip
    range on either side. *)
Remark sym_loop_can_leave_range :
  (exists y, symQuantizer [-1] 4 (-1) (5 # 2) = Returned [y] /\ y < -1) /\
  (exists y, symQuantizer [6 # 5] 4 (-5 # 2) (6 # 5) = Returned [y] /\ 6 # 5 < y).
Proof.
  split; eexists; (split; [vm_compute; reflexivity | reflexivity]).
Qed.

(** ** C3: invalid parameters *)





(** Outside that range the failure is still not a validation: a bit width
    of [1024] raises [OverflowError] when the int meets the float, and a
    negative one returns. *)
Remark extreme_bit_widths :
  IEEE.simpleQuantizer [IEEE.b32_of_Z 3] 1024 (IEEE.b64 (-5) 2) (IEEE.b64 5 2)
  = Raised OverflowError /\
  exists out,
    IEEE.simpleQuantizer [IEEE.b32_of_Z 3] (-1) (IEEE.b64 (-5) 2) (IEEE.b64 5 2)
    = Returned out.
Proof.
  split; [vm_compute; reflexivity | eexists; vm_compute; reflexivity].
Qed.

(** ** C4: number of distinct output values *)

(** C4, as stated, fails for the symmetric quantizer: with 4 bits and the
    bounds [-2.5], [2.5] the fifteen inputs [k * 5/14], [k = -7 .. 7], are
    returned unchanged, fifteen distinct values where [2^4 - 2 = 14] are
    claimed; with 2 bits three values appear where [2^2 - 2 = 2] are
    claimed. *)
Lemma C4_counterexample :
  (exists out,
     symQuantizer
       (map (fun k => inject_Z k * (5 # 14))
            [-7; -6; -5; -4; -3; -2; -1; 0; 1; 2; 3; 4; 5; 6; 7]%Z)
       4 (-5 # 2) (5 # 2) = Returned out /\
     ~ (distinct_count out <= 2 ^ 4 - 2)%Z) /\
  (exists out,
     symQuantizer [-5 # 2; 0; 5 # 2] 2 (-5 # 2) (5 # 2) = Returned out /\
     ~ (distinct_count out <= 2 ^ 2 - 2)%Z).
Proof.
  split; eexists; (split; [vm_compute; reflexivity | vm_compute; intros H; apply H; reflexivity]).
Qed.

(** C4, amended.  In exact rational arithmetic, whatever the size of the
    input, the output of [simpleQuantizer] (asymmetric, [bit_width >= 1])
    has at most [2^bit_width] distinct values, and the output of the
    symmetric quantizer ([bit_width >= 2]) has at most
    [2^bit_width - 1]. *)
Theorem C4_distinct_values
  (input : tensor) (bit_width : Z) (clip_lower clip_upper : Q) :
  clip_lower < clip_upper ->
  ((1 <= bit_width)%Z ->
     exists out,
       simpleQuantizer input bit_width clip_lower clip_upper = Returned out /\
       (distinct_count out <= 2 ^ bit_width)%Z) /\
  ((2 <= bit_width)%Z ->
     exists out,
       symQuantizer input bit_width clip_lower clip_upper = Returned out /\
       (distinct_count out <= 2 ^ bit_width - 1)%Z).
Proof.
  intros Hb. split; intros Hn.
  - eexists. split; [apply simpleQuantizer_valid; assumption|].
    destruct (pow2_minus_1 bit_width Hn) as [_ G].
    replace (2 ^ bit_width)%Z with ((2 ^ bit_width - 1) + 1)%Z by lia.
    apply (distinct_count_codes _ _ _ _ 0%Z); [lia|].
    intros x. apply asym_code_range; assumption.
  - eexists. split; [apply symQuantizer_valid; assumption|].
    destruct (pow2_minus_2 bit_width Hn) as [_ G].
    assert (E : (2 ^ bit_width - 1 = 2 * (2 ^ (bit_width - 1) - 1) + 1)%Z).
    { replace bit_width with (1 + (bit_width - 1))%Z at 1 by lia.
      rewrite Z.pow_add_r by lia. change (2 ^ 1)%Z with 2%Z. lia. }
    rewrite E.
    set (sc := (clip_upper - - Qmax clip_upper (Qabs clip_lower))
               / (2 ^ bit_width - 2)).
    apply (distinct_count_codes _ _ _ _
             (round_code ((clip_lower - 0) / sc))); [lia|].
    intros x.
    pose proof (sym_scale_pos bit_width clip_lower clip_upper Hn Hb) as P.
    pose proof (sym_code_span bit_width clip_lower clip_upper Hn Hb) as S.
    destruct (code1_between sc 0 clip_lower clip_upper P x) as [L U]; [lra|].
    fold sc in S. lia.
Qed.

Lemma C4_witness :
  (exists out,
     simpleQuantizer [-4; 0; 1 # 3; 3; 0] 4 (-5 # 2) (5 # 2) = Returned out /\
     (distinct_count out <= 2 ^ 4)%Z) /\
  (exists out,
     symQuantizer [-4; 0; 1 # 3; 3; 0] 4 (-5 # 2) (5 # 2) = Returned out /\
     (distinct_count out <= 2 ^ 4 - 1)%Z).
Proof.
  split;
    apply (C4_distinct_values [-4; 0; 1 # 3; 3; 0] 4 (-5 # 2) (5 # 2)); lra || lia.
Defined.

(** The bounds of C4 are those of exact arithmetic.  On binary64 arrays a
    quotient can miss an exact tie: with 3 bits and the bounds [-2.7],
    [0.9] the symmetric branch gives codes from [-5] to [2], eight distinct
    values where exact arithmetic allows [2^3 - 1 = 7]. *)
Remark sym_loop_binary64_eight_values :
  exists out,
    IEEE.symQuantizer
      [IEEE.b64 (-27) 10; IEEE.b64 (-24) 10; IEEE.b64 (-18) 10;
       IEEE.b64 (-12) 10; IEEE.b64 (-6) 10; IEEE.b64 0 1;
       IEEE.b64 6 10; IEEE.b64 9 10]
      3 (IEEE.b64 (-27) 10) (IEEE.b64 9 10) = Returned out /\
    length (IEEE.unique out) = 8%nat.
Proof.
  eexists. split; vm_compute; reflexivity.
Qed.

(** The asymmetric branch of the loop is not [simpleQuantizer]: it takes
    the lower bound from the data and an integer zero point, and with one
    bit the three inputs below come out as three distinct values. *)
Remark asym_loop_three_values :
  exists out,
    yq_i true [1; 2; 3] 1 0 3 = Returned out /\
    tensor_eq out [0; 2; 4] /\ distinct_count out = 3%Z.
Proof.
  eexists. split; [vm_compute; reflexivity|].
  split; [repeat constructor | reflexivity].
Qed.

(** ** C5: idempotence *)



(** ** C6: monotonicity *)




(** ** C7: the worked asymmetric example *)

(** C7.  With 4 bits and the bounds [-2.5], [2.5] the step size is [1/3];
    the input [0] has scaled value [7.5], code [8] and output
    [8 * (1/3) + (-2.5) = 1/6]; the input [3] is clamped to [2.5], has
    scaled value [15] and output [2.5]. *)
Theorem C7_asymmetric_example :
  exists step scaled out,
    stepsize 4 (-5 # 2) (5 # 2) = Returned step /\ step == 1 # 3 /\
    tensor_eq (clamp [0; 3] (-5 # 2) (5 # 2)) [0; 5 # 2] /\
    y_scaled [0; 3] (-5 # 2) (5 # 2) step = Returned scaled /\
    tensor_eq scaled [15 # 2; 15] /\
    tensor_eq (y_int scaled) [8; 15] /\
    simpleQuantizer [0; 3] 4 (-5 # 2) (5 # 2) = Returned out /\
    tensor_eq out [8 * (1 # 3) + (-5 # 2); 5 # 2] /\
    8 * (1 # 3) + (-5 # 2) == 1 # 6.
Proof.
  do 3 eexists.
  split; [vm_compute; reflexivity|].
  split; [reflexivity|].
  split; [repeat constructor|].
  split; [vm_compute; reflexivity|].
  split; [repeat constructor|].
  split; [repeat constructor|].
  split; [vm_compute; reflexivity|].
  split; [repeat constructor | reflexivity].
Qed.

(** ** C8: the parameters of the symmetric quantizer *)

(** C8.  The symmetric branch uses [clip_min_i = -max(clip_max, |clip_min|)],
    the zero point [0] and the step [(clip_max - clip_min_i) / (2^n_bit - 2)];
    with 4 bits and the bounds [-2.5], [2.5] the effective lower bound is
    [-2.5], the step is [5/14], and the input [0] has code [0] and output
    [0]. *)
Theorem C8_symmetric_parameters :
  (forall (bit_width : Z) (clip_lower clip_upper : Q),
     (2 <= bit_width)%Z ->
     exists p,
       sym_params bit_width clip_lower clip_upper = Returned p /\
       clip_min_i p == - Qmax clip_upper (Qabs clip_lower) /\
       zp p == 0 /\
       scale p == (clip_upper - clip_min_i p) / (2 ^ bit_width - 2)) /\
  (exists p codes out,
     sym_params 4 (-5 # 2) (5 # 2) = Returned p /\
     clip_min_i p == -5 # 2 /\ nbins p == 14 /\
     scale p == 5 # 14 /\ zp p == 0 /\
     y_int_i p [0] (-5 # 2) (5 # 2) = Returned codes /\
     tensor_eq codes [0] /\
     symQuantizer [0] 4 (-5 # 2) (5 # 2) = Returned out /\
     tensor_eq out [0]).
Proof.
  split.
  - intros bit_width clip_lower clip_upper Hn.
    destruct (pow2_minus_2 bit_width Hn) as [E G].
    apply inject_Z_ge1 in G.
    eexists. split.
    + apply sym_params_returns.
      rewrite E, (inject_Z_double (2 ^ (bit_width - 1) - 1)). lra.
    + cbn [clip_min_i zp scale]. repeat split; reflexivity.
  - do 3 eexists.
    split; [vm_compute; reflexivity|].
    do 4 (split; [reflexivity|]).
    split; [vm_compute; reflexivity|].
    split; [repeat constructor|].
    split; [vm_compute; reflexivity | repeat constructor].
Qed.

Lemma C8_witness :
  exists p,
    sym_params 3 (-1) 2 = Returned p /\
    clip_min_i p == - Qmax 2 (Qabs (-1)) /\
    zp p == 0 /\
    scale p == (2 - clip_min_i p) / (2 ^ 3 - 2).
Proof.
  apply (proj1 C8_symmetric_parameters 3%Z (-1) 2). lia.
Defined.

(** ** C9: ties of the rounding step *)

(** C9, as stated, fails: the scaled value [6.5] (input [6.5], 4 bits,
    bounds [0] and [15], step [1]) gets the code [6] and the output [6],
    where rounding half away from zero gives [7]; in the symmetric branch
    (4 bits, bounds [-7] and [7], step [1]) the scaled value [-6.5] gets
    the code [-6], not [-7]. *)
Lemma C9_counterexample :
  (exists step scaled out,
     stepsize 4 0 15 = Returned step /\ step == 1 /\
     y_scaled [13 # 2] 0 15 step = Returned scaled /\
     tensor_eq scaled [13 # 2] /\
     tensor_eq (y_int scaled) [6] /\
     simpleQuantizer [13 # 2] 4 0 15 = Returned out /\
     tensor_eq out [6] /\
     Spec.round_half_away (13 # 2) = 7%Z) /\
  (exists p codes,
     sym_params 4 (-7) 7 = Returned p /\ scale p == 1 /\
     y_int_i p [- (13 # 2)] (-7) 7 = Returned codes /\
     tensor_eq codes [-6] /\
     Spec.round_half_away (- (13 # 2)) = (-7)%Z).
Proof.
  split.
  - do 3 eexists.
    split; [vm_compute; reflexivity|].
    split; [reflexivity|].
    split; [vm_compute; reflexivity|].
    split; [repeat constructor|].
    split; [repeat constructor|].
    split; [vm_compute; reflexivity|].
    split; [repeat constructor | reflexivity].
  - do 2 eexists.
    split; [vm_compute; reflexivity|].
    split; [reflexivity|].
    split; [vm_compute; reflexivity|].
    split; [repeat constructor | reflexivity].
Qed.

(** C9, amended.  The rounding step rounds to the nearest integer and
    breaks ties toward the even neighbour: an element whose clamped and
    scaled value is exactly [k + 1/2] gets the code [k] when [k] is even
    and [k + 1] when [k] is odd (so [6.5] gives [6], [7.5] gives [8]). *)
Theorem C9_ties_to_even
  (input : tensor) (n_bit : Z) (clip_min clip_max step : Q)
  (scaled : tensor) (i : nat) (s : Q) (k : Z) :
  stepsize n_bit clip_min clip_max = Returned step ->
  y_scaled input clip_min clip_max step = Returned scaled ->
  nth_error scaled i = Some s ->
  s == inject_Z k + (1 # 2) ->
  nth_error (y_int scaled) i
  = Some (inject_Z (if Z.even k then k else (k + 1)%Z)).
Proof.
  intros _ _ Hi Hs.
  unfold y_int, round.
  rewrite nth_error_map, Hi. simpl.
  unfold round1. rewrite (round_code_tie s k Hs). reflexivity.
Qed.

Lemma C9_witness :
  nth_error (y_int [195 # 30; 225 # 30]) 0 = Some (inject_Z 6) /\
  nth_error (y_int [195 # 30; 225 # 30]) 1 = Some (inject_Z 8).
Proof.
  split.
  - apply (C9_ties_to_even [13 # 2; 15 # 2] 4 0 15 (15 # 15)
             [195 # 30; 225 # 30] 0 (195 # 30) 6);
      reflexivity.
  - apply (C9_ties_to_even [13 # 2; 15 # 2] 4 0 15 (15 # 15)
             [195 # 30; 225 # 30] 1 (225 # 30) 7);
      reflexivity.
Defined.

(** ** C10: the quantization error *)

(** C10.  In exact arithmetic, with [bit_width >= 1] and
    [clip_lower < clip_upper], a scalar [x] inside
    [[clip_lower, clip_upper]] moves by at most half a step:
    [|quantize(x) - x| <= step_size / 2] with
    [step_size = (clip_upper - clip_lower) / (2^bit_width - 1)]. *)
Theorem C10_error_at_most_half_step
  (x : Q) (bit_width : Z) (clip_lower clip_upper : Q) :
  (1 <= bit_width)%Z -> clip_lower < clip_upper ->
  clip_lower <= x <= clip_upper ->
  exists y,
    simpleQuantizer [x] bit_width clip_lower clip_upper = Returned [y] /\
    Qabs (y - x) <= (clip_upper - clip_lower) / (2 ^ bit_width - 1) / 2.
Proof.
  intros Hn Hb Hx. eexists.
  split; [apply (simpleQuantizer_valid _ _ _ Hn Hb [x])|].
  apply quant1_error; [|exact Hx].
  apply asym_step_pos; assumption.
Qed.

Lemma C10_witness :
  exists y,
    simpleQuantizer [1 # 10] 4 (-5 # 2) (5 # 2) = Returned [y] /\
    Qabs (y - (1 # 10)) <= ((5 # 2) - (-5 # 2)) / (2 ^ 4 - 1) / 2.
Proof.
  apply (C10_error_at_most_half_step (1 # 10) 4 (-5 # 2) (5 # 2));
    [lia | lra | split; lra].
Defined.

(** * Further properties of the notebook's code *)

Section RoundingMore.

(** Round-half-to-even is an odd function. *)
Lemma round_code_opp (q : Q) : round_code (- q) = (- round_code q)%Z.
Proof.
  destruct (round_code_near q) as [A B].
  destruct (round_code_near (- q)) as [A' B'].
  set (r := round_code q) in *. set (r' := round_code (- q)) in *.
  assert (U : (r + r' <= 1)%Z).
  { rewrite Zle_Qle, inject_Z_plus. change (inject_Z 1) with 1. lra. }
  assert (L : (-1 <= r + r')%Z).
  { rewrite Zle_Qle, inject_Z_plus. change (inject_Z (-1)) with (-1). lra. }
  assert (I : forall a b : Z, inject_Z a + inject_Z b == inject_Z (a + b))
    by (intros; rewrite inject_Z_plus; reflexivity).
  destruct (Z.eq_dec (r + r') 1) as [E1 | N1].
  - exfalso.
    assert (S : inject_Z r + inject_Z r' == 1) by (rewrite I, E1; reflexivity).
    assert (T : q == inject_Z (r - 1) + (1 # 2)).
    { unfold Z.sub. rewrite inject_Z_plus. change (inject_Z (- (1))) with (-1). lra. }
    assert (T' : - q == inject_Z (r' - 1) + (1 # 2)).
    { unfold Z.sub. rewrite inject_Z_plus. change (inject_Z (- (1))) with (-1). lra. }
    apply round_code_tie_even in T. apply round_code_tie_even in T'.
    fold r in T. fold r' in T'.
    apply Z.even_spec in T, T'. destruct T as [a Ha], T' as [b Hb]. lia.
  - destruct (Z.eq_dec (r + r') (-1)) as [E2 | N2]; [|lia].
    exfalso.
    assert (S : inject_Z r + inject_Z r' == -1) by (rewrite I, E2; reflexivity).
    assert (T : q == inject_Z r + (1 # 2)) by lra.
    assert (T' : - q == inject_Z r' + (1 # 2)) by lra.
    apply round_code_tie_even in T. apply round_code_tie_even in T'.
    fold r in T. fold r' in T'.
    apply Z.even_spec in T, T'. destruct T as [a Ha], T' as [b Hb]. lia.
Qed.

(** No integer is closer to the argument than its rounded value. *)
Lemma round_code_nearest (q : Q) (j : Z) :
  Qabs (inject_Z (round_code q) - q) <= Qabs (inject_Z j - q).
Proof.
  destruct (round_code_near q) as [A B].
  set (r := round_code q) in *.
  assert (H : Qabs (inject_Z r - q) <= 1 # 2)
    by (apply Qabs_Qle_condition; lra).
  destruct (Z.eq_dec j r) as [-> | N]; [apply Qle_refl|].
  apply Qle_trans with (1 # 2); [exact H|].
  destruct (Z_lt_le_dec j r) as [lt | ge].
  - assert (C : inject_Z j + 1 <= inject_Z r)
      by (rewrite <- inject_Z_succ, <- Zle_Qle; lia).
    rewrite Qabs_neg by lra. lra.
  - assert (C : inject_Z r + 1 <= inject_Z j)
      by (rewrite <- inject_Z_succ, <- Zle_Qle; lia).
    rewrite Qabs_pos by lra. lra.
Qed.

End RoundingMore.

Section KernelMore.

Variables step z lo hi : Q.
Hypothesis step_pos : 0 < step.
Hypothesis bounds : lo <= hi.

Lemma clamp1_below (x : Q) : x <= lo -> clamp1 x lo hi == lo.
Proof.
  intros L. unfold clamp1. rewrite (Q.max_r x lo L). apply Q.min_l, bounds.
Qed.

Lemma clamp1_above (x : Q) : hi <= x -> clamp1 x lo hi == hi.
Proof.
  intros L. unfold clamp1.
  rewrite (Q.max_l x lo) by lra. apply Q.min_r, L.
Qed.

Lemma code1_eq (x y : Q) :
  clamp1 x lo hi == clamp1 y lo hi -> code1 step z lo hi x = code1 step z lo hi y.
Proof.
  intros E. unfold code1. apply round_code_eq. rewrite E. reflexivity.
Qed.

Lemma quant1_eq (x y : Q) :
  clamp1 x lo hi == clamp1 y lo hi ->
  quant1 step z lo hi x == quant1 step z lo hi y.
Proof.
  intros E. unfold quant1. rewrite (code1_eq x y E). reflexivity.
Qed.

(** Only the clamped value matters. *)
Lemma quant1_clamp (x : Q) :
  quant1 step z lo hi (clamp1 x lo hi) == quant1 step z lo hi x.
Proof.
  apply quant1_eq, clamp1_id, clamp1_in_range, bounds.
Qed.

(** The output is within half a step of the clamped input. *)
Lemma quant1_near_clamp (x : Q) :
  Qabs (quant1 step z lo hi x - clamp1 x lo hi) <= step / 2.
Proof.
  rewrite <- quant1_clamp.
  apply quant1_error; [exact step_pos | apply clamp1_in_range, bounds].
Qed.

(** No grid point [j * step + z] is closer to the clamped input. *)
Lemma quant1_nearest_level (x : Q) (j : Z) :
  Qabs (quant1 step z lo hi x - clamp1 x lo hi)
  <= Qabs (inject_Z j * step + z - clamp1 x lo hi).
Proof.
  pose proof (step_neq_0 step step_pos) as NZ.
  unfold quant1, code1.
  set (s := (clamp1 x lo hi - z) / step).
  assert (S : clamp1 x lo hi == s * step + z).
  { unfold s. rewrite Qdiv_cancel by exact NZ. ring. }
  assert (F : forall k : Q, k * step + z - clamp1 x lo hi == (k - s) * step)
    by (intros; rewrite S; ring).
  rewrite !F, !Qabs_Qmult, (Qabs_pos step) by lra.
  apply Qmult_le_compat_r; [apply round_code_nearest | lra].
Qed.

(** Quantizing twice is quantizing once, also when the first result has
    left the clip range. *)
Lemma quant1_idempotent (x : Q) :
  quant1 step z lo hi (quant1 step z lo hi x) == quant1 step z lo hi x.
Proof.
  pose proof (step_neq_0 step step_pos) as NZ.
  set (k := code1 step z lo hi x).
  assert (Y : quant1 step z lo hi x == inject_Z k * step + z) by reflexivity.
  destruct (code1_between step z lo hi step_pos x bounds) as [KL KU].
  fold k in KL, KU.
  assert (C : code1 step z lo hi (quant1 step z lo hi x) = k).
  { destruct (Qlt_le_dec (quant1 step z lo hi x) lo) as [below | ge].
    - (* fell below the range: [k] is the code of the lower bound *)
      rewrite (code1_eq _ lo)
        by (rewrite clamp1_below by lra; symmetry; apply clamp1_id; lra).
      assert (E : code1 step z lo hi lo = round_code ((lo - z) / step)).
      { unfold code1. apply round_code_eq. rewrite clamp1_id by lra. reflexivity. }
      rewrite E.
      destruct (round_code_near ((lo - z) / step)) as [N1 N2].
      set (a := (lo - z) / step) in *.
      assert (A : a * step == lo - z) by (apply Qdiv_cancel, NZ).
      assert (B : inject_Z k * step < a * step) by (rewrite A; rewrite Y in below; lra).
      assert (D : inject_Z k < a).
      { destruct (Qlt_le_dec (inject_Z k) a) as [ok | bad]; [exact ok|].
        exfalso. assert (a * step <= inject_Z k * step)
          by (apply Qmult_le_compat_r; lra). lra. }
      assert (G : (k < round_code a + 1)%Z)
        by (rewrite Zlt_Qlt, inject_Z_succ; lra).
      lia.
    - destruct (Qlt_le_dec hi (quant1 step z lo hi x)) as [above | le].
      + rewrite (code1_eq _ hi)
          by (rewrite clamp1_above by lra; symmetry; apply clamp1_id; lra).
        assert (E : code1 step z lo hi hi = round_code ((hi - z) / step)).
        { unfold code1. apply round_code_eq. rewrite clamp1_id by lra. reflexivity. }
        rewrite E.
        destruct (round_code_near ((hi - z) / step)) as [N1 N2].
        set (a := (hi - z) / step) in *.
        assert (A : a * step == hi - z) by (apply Qdiv_cancel, NZ).
        assert (B : a * step < inject_Z k * step) by (rewrite A; rewrite Y in above; lra).
        assert (D : a < inject_Z k).
        { destruct (Qlt_le_dec a (inject_Z k)) as [ok | bad]; [exact ok|].
          exfalso. assert (inject_Z k * step <= a * step)
            by (apply Qmult_le_compat_r; lra). lra. }
        assert (G : (round_code a < k + 1)%Z)
          by (rewrite Zlt_Qlt, inject_Z_succ; lra).
        lia.
      + apply (code1_level step z lo hi step_pos); [split; assumption | exact Y]. }
  unfold quant1 at 1. rewrite C. reflexivity.
Qed.

End KernelMore.

(** ** The step-by-step cells and [simpleQuantizer] *)

Lemma stepsize_returns (n_bit : Z) (clip_min clip_max : Q) :
  n_bit <> 0%Z ->
  stepsize n_bit clip_min clip_max
  = Returned ((clip_max - clip_min) / (2 ^ n_bit - 1)).
Proof.
  intros H. unfold stepsize, py_div.
  rewrite (Qeq_bool_false _ 0 (pow2_neq_1 n_bit H)). reflexivity.
Qed.

Lemma y_scaled_returns (input : tensor) (clip_min clip_max step : Q) :
  ~ step == 0 ->
  y_scaled input clip_min clip_max step
  = Returned (map (fun x => (clamp1 x clip_min clip_max - clip_min) / step) input).
Proof.
  intros H. unfold y_scaled. rewrite (tensor_div_returns _ _ H).
  unfold tensor_sub, clamp. rewrite !map_map. reflexivity.
Qed.

(** X1.  With [n_bit >= 1] and [clip_min < clip_max] the cells return: the
    step is positive, every scaled value lies in [[0, 2^n_bit - 1]] and
    every entry of [y_int] is an integer of that range. *)
Theorem X1_codes_in_range
  (input : tensor) (n_bit : Z) (clip_min clip_max : Q) :
  (1 <= n_bit)%Z -> clip_min < clip_max ->
  exists step scaled,
    stepsize n_bit clip_min clip_max = Returned step /\ 0 < step /\
    y_scaled input clip_min clip_max step = Returned scaled /\
    Forall (fun s => 0 <= s <= 2 ^ n_bit - 1) scaled /\
    Forall (fun c => exists k : Z,
              c = inject_Z k /\ (0 <= k <= 2 ^ n_bit - 1)%Z) (y_int scaled).
Proof.
  intros Hn Hb.
  pose proof (asym_step_pos n_bit clip_min clip_max Hn Hb) as P.
  pose proof (asym_step_total n_bit clip_min clip_max Hn) as T.
  destruct (pow2_minus_1 n_bit Hn) as [E _]. rewrite <- E in T.
  set (step := (clip_max - clip_min) / (2 ^ n_bit - 1)) in *.
  exists step. eexists.
  split; [apply stepsize_returns; lia|].
  split; [exact P|].
  split; [apply y_scaled_returns, step_neq_0, P|].
  split.
  - apply Forall_forall. intros s I.
    apply in_map_iff in I. destruct I as [x [<- _]].
    destruct (clamp1_in_range clip_min clip_max x) as [L U]; [lra|].
    split.
    + apply Qle_shift_div_l; [exact P | lra].
    + apply Qle_shift_div_r; [exact P | lra].
  - unfold y_int, round. rewrite map_map.
    apply Forall_forall. intros c I.
    apply in_map_iff in I. destruct I as [x [<- _]].
    eexists. split; [reflexivity|].
    apply (asym_code_range n_bit clip_min clip_max Hn Hb x).
Qed.

Lemma X1_witness :
  exists step scaled,
    stepsize 4 (-5 # 2) (5 # 2) = Returned step /\ 0 < step /\
    y_scaled [-4; 0; 1 # 3; 3] (-5 # 2) (5 # 2) step = Returned scaled /\
    Forall (fun s => 0 <= s <= 2 ^ 4 - 1) scaled /\
    Forall (fun c => exists k : Z,
              c = inject_Z k /\ (0 <= k <= 2 ^ 4 - 1)%Z) (y_int scaled).
Proof.
  apply (X1_codes_in_range [-4; 0; 1 # 3; 3] 4 (-5 # 2) (5 # 2)); [lia | lra].
Defined.

(** X2.  In exact arithmetic, codes and values round-trip: dequantizing an integer code
    [k] of [[0, 2^n_bit - 1]] with the [yq] cell and quantizing the result
    gives the code [k] back, and [simpleQuantizer] leaves the dequantized
    value unchanged. *)
Theorem X2_code_round_trip (k : Z) (n_bit : Z) (clip_min clip_max : Q) :
  (1 <= n_bit)%Z -> clip_min < clip_max -> (0 <= k <= 2 ^ n_bit - 1)%Z ->
  exists step scaled out,
    stepsize n_bit clip_min clip_max = Returned step /\
    y_scaled (yq [inject_Z k] step clip_min) clip_min clip_max step
    = Returned scaled /\
    y_int scaled = [inject_Z k] /\
    simpleQuantizer (yq [inject_Z k] step clip_min) n_bit clip_min clip_max
    = Returned out /\
    tensor_eq out (yq [inject_Z k] step clip_min).
Proof.
  intros Hn Hb Hk.
  pose proof (asym_step_pos n_bit clip_min clip_max Hn Hb) as P.
  pose proof (asym_step_total n_bit clip_min clip_max Hn) as T.
  set (step := (clip_max - clip_min) / (2 ^ n_bit - 1)) in *.
  set (y := inject_Z k * step + clip_min).
  assert (R : clip_min <= y <= clip_max).
  { destruct Hk as [K0 K1]. rewrite Zle_Qle in K0, K1.
    assert (A : inject_Z 0 * step <= inject_Z k * step)
      by (apply Qmult_le_compat_r; lra).
    assert (B : inject_Z k * step <= inject_Z (2 ^ n_bit - 1) * step)
      by (apply Qmult_le_compat_r; lra).
    assert (Z0 : inject_Z 0 * step == 0) by ring.
    unfold y. lra. }
  assert (C : code1 step clip_min clip_min clip_max y = k)
    by (apply (code1_level step clip_min clip_min clip_max P); [exact R | reflexivity]).
  exists step. do 2 eexists.
  split; [apply stepsize_returns; lia|].
  split; [apply y_scaled_returns, step_neq_0, P|].
  split.
  - unfold yq, tensor_add, tensor_mul, y_int, round. simpl. fold y.
    unfold round1. unfold code1 in C. rewrite C. reflexivity.
  - split; [apply simpleQuantizer_valid; assumption|].
    unfold yq, tensor_add, tensor_mul. simpl. fold step y.
    constructor; [|constructor].
    unfold quant1. rewrite C. reflexivity.
Qed.

Lemma X2_witness :
  exists step scaled out,
    stepsize 4 (-5 # 2) (5 # 2) = Returned step /\
    y_scaled (yq [inject_Z 11] step (-5 # 2)) (-5 # 2) (5 # 2) step
    = Returned scaled /\
    y_int scaled = [inject_Z 11] /\
    simpleQuantizer (yq [inject_Z 11] step (-5 # 2)) 4 (-5 # 2) (5 # 2)
    = Returned out /\
    tensor_eq out (yq [inject_Z 11] step (-5 # 2)).
Proof.
  apply (X2_code_round_trip 11 4 (-5 # 2) (5 # 2)); [lia | lra | lia].
Defined.

(** X3.  Saturation, in exact arithmetic: with [n_bit >= 1] and
    [clip_min < clip_max], an
    element at or below [clip_min] comes out as [clip_min] and an element
    at or above [clip_max] comes out as [clip_max]. *)
Theorem X3_saturation (input : tensor) (n_bit : Z) (clip_min clip_max : Q) :
  (1 <= n_bit)%Z -> clip_min < clip_max ->
  exists out,
    simpleQuantizer input n_bit clip_min clip_max = Returned out /\
    Forall2 (fun x y => (x <= clip_min -> y == clip_min) /\
                        (clip_max <= x -> y == clip_max)) input out.
Proof.
  intros Hn Hb.
  pose proof (asym_step_pos n_bit clip_min clip_max Hn Hb) as P.
  pose proof (asym_step_total n_bit clip_min clip_max Hn) as T.
  eexists. split; [apply simpleQuantizer_valid; assumption|].
  set (step := (clip_max - clip_min) / (2 ^ n_bit - 1)) in *.
  assert (Lo : quant1 step clip_min clip_min clip_max clip_min == clip_min).
  { unfold quant1.
    rewrite (code1_level step clip_min clip_min clip_max P clip_min 0); [ring | lra | ring]. }
  assert (Hi : quant1 step clip_min clip_min clip_max clip_max == clip_max).
  { unfold quant1.
    rewrite (code1_level step clip_min clip_min clip_max P clip_max (2 ^ n_bit - 1));
      [rewrite T; ring | lra | rewrite T; ring]. }
  induction input as [| x r IH]; simpl; constructor; [|exact IH].
  split; intros H.
  - apply Qeq_trans with (quant1 step clip_min clip_min clip_max clip_min);
      [|exact Lo].
    apply quant1_eq. rewrite clamp1_below, clamp1_id by lra. reflexivity.
  - apply Qeq_trans with (quant1 step clip_min clip_min clip_max clip_max);
      [|exact Hi].
    apply quant1_eq. rewrite clamp1_above, clamp1_id by lra. reflexivity.
Qed.

Lemma X3_witness :
  exists out,
    simpleQuantizer [-4; 0; 7] 4 (-5 # 2) (5 # 2) = Returned out /\
    Forall2 (fun x y => (x <= -5 # 2 -> y == -5 # 2) /\
                        (5 # 2 <= x -> y == 5 # 2)) [-4; 0; 7] out.
Proof.
  apply (X3_saturation [-4; 0; 7] 4 (-5 # 2) (5 # 2)); [lia | lra].
Defined.

(** X4.  Best approximation, in exact arithmetic: with [n_bit >= 1] and
    [clip_min < clip_max],
    no point [clip_min + j * stepsize] of the grid, [j] any integer, is
    closer to the clamped input than the output of [simpleQuantizer]. *)
Theorem X4_nearest_level (input : tensor) (n_bit : Z) (clip_min clip_max : Q) :
  (1 <= n_bit)%Z -> clip_min < clip_max ->
  exists step out,
    stepsize n_bit clip_min clip_max = Returned step /\
    simpleQuantizer input n_bit clip_min clip_max = Returned out /\
    Forall2 (fun x y => forall j : Z,
               Qabs (y - clamp1 x clip_min clip_max)
               <= Qabs (inject_Z j * step + clip_min - clamp1 x clip_min clip_max))
            input out.
Proof.
  intros Hn Hb.
  pose proof (asym_step_pos n_bit clip_min clip_max Hn Hb) as P.
  do 2 eexists.
  split; [apply stepsize_returns; lia|].
  split; [apply simpleQuantizer_valid; assumption|].
  induction input as [| x r IH]; simpl; constructor; [|exact IH].
  intros j. apply quant1_nearest_level, P.
Qed.

Lemma X4_witness :
  exists step out,
    stepsize 4 (-5 # 2) (5 # 2) = Returned step /\
    simpleQuantizer [-4; 1 # 7; 3] 4 (-5 # 2) (5 # 2) = Returned out /\
    Forall2 (fun x y => forall j : Z,
               Qabs (y - clamp1 x (-5 # 2) (5 # 2))
               <= Qabs (inject_Z j * step + (-5 # 2) - clamp1 x (-5 # 2) (5 # 2)))
            [-4; 1 # 7; 3] out.
Proof.
  apply (X4_nearest_level [-4; 1 # 7; 3] 4 (-5 # 2) (5 # 2)); [lia | lra].
Defined.



(** X6.  In exact arithmetic more bits give a finer grid: for
    [1 <= n <= m] and
    [clip_min < clip_max] the step for [m] bits is at most the step for
    [n] bits, and strictly smaller when [n < m]. *)
Theorem X6_step_decreases (n m : Z) (clip_min clip_max : Q) :
  (1 <= n)%Z -> (n <= m)%Z -> clip_min < clip_max ->
  exists sn sm,
    stepsize n clip_min clip_max = Returned sn /\
    stepsize m clip_min clip_max = Returned sm /\
    0 < sm /\ sm <= sn /\ ((n < m)%Z -> sm < sn).
Proof.
  intros Hn Hm Hb.
  assert (Hm1 : (1 <= m)%Z) by lia.
  pose proof (asym_step_pos n clip_min clip_max Hn Hb) as Pn.
  pose proof (asym_step_pos m clip_min clip_max Hm1 Hb) as Pm.
  pose proof (asym_step_total n clip_min clip_max Hn) as Tn.
  pose proof (asym_step_total m clip_min clip_max Hm1) as Tm.
  do 2 eexists.
  split; [apply stepsize_returns; lia|].
  split; [apply stepsize_returns; lia|].
  set (sn := (clip_max - clip_min) / (2 ^ n - 1)) in *.
  set (sm := (clip_max - clip_min) / (2 ^ m - 1)) in *.
  destruct (pow2_minus_1 n Hn) as [_ Gn].
  apply inject_Z_ge1 in Gn.
  set (a := inject_Z (2 ^ n - 1)) in *.
  set (b := inject_Z (2 ^ m - 1)) in *.
  assert (AB : a <= b).
  { unfold a, b. rewrite <- Zle_Qle.
    pose proof (Z.pow_le_mono_r 2 n m ltac:(lia) Hm). lia. }
  assert (ABs : (n < m)%Z -> a < b).
  { intros L. unfold a, b. rewrite <- Zlt_Qlt.
    pose proof (Z.pow_lt_mono_r 2 n m ltac:(lia) ltac:(lia) L). lia. }
  assert (M1 : a * sm <= b * sm) by (apply Qmult_le_compat_r; lra).
  split; [exact Pm|]. split.
  - destruct (Qlt_le_dec sn sm) as [bad | ok]; [|exact ok].
    exfalso.
    assert (a * sn < a * sm) by (apply Qmult_lt_l; lra). lra.
  - intros L. specialize (ABs L).
    assert (M2 : a * sm < b * sm) by (apply Qmult_lt_compat_r; lra).
    destruct (Qlt_le_dec sm sn) as [ok | bad]; [exact ok|].
    exfalso.
    assert (a * sn <= a * sm) by (apply Qmult_le_l; lra). lra.
Qed.

Lemma X6_witness :
  exists sn sm,
    stepsize 4 (-5 # 2) (5 # 2) = Returned sn /\
    stepsize 8 (-5 # 2) (5 # 2) = Returned sm /\
    0 < sm /\ sm <= sn /\ ((4 < 8)%Z -> sm < sn).
Proof.
  apply (X6_step_decreases 4 8 (-5 # 2) (5 # 2)); [lia | lia | lra].
Defined.

(** ** The symmetric branch *)

Lemma clamp1_opp (x lo hi : Q) :
  lo == - hi -> lo <= hi -> clamp1 (- x) lo hi == - clamp1 x lo hi.
Proof.
  intros E B. unfold clamp1.
  destruct (Q.max_spec x lo) as [[A1 E1] | [A1 E1]];
  destruct (Q.max_spec (- x) lo) as [[A2 E2] | [A2 E2]];
  destruct (Q.min_spec (Qmax x lo) hi) as [[A3 E3] | [A3 E3]];
  destruct (Q.min_spec (Qmax (- x) lo) hi) as [[A4 E4] | [A4 E4]];
  rewrite E3, E4; lra.
Qed.

Section SymmetricMore.

Variables (n_bit : Z) (clip_min clip_max : Q).
Hypothesis bits_valid : (2 <= n_bit)%Z.
Hypothesis bounds_valid : clip_min < clip_max.

Let sc : Q := (clip_max - - Qmax clip_max (Qabs clip_min)) / (2 ^ n_bit - 2).

Lemma sym_sc_pos : 0 < sc.
Proof. apply sym_scale_pos; assumption. Qed.

(** When the upper bound has the larger magnitude the codes stay within
    [-(2^(n_bit-1) - 1) .. 2^(n_bit-1) - 1]. *)
Lemma sym_code_range (x : Q) :
  Qabs clip_min <= clip_max ->
  (- (2 ^ (n_bit - 1) - 1) <= code1 sc 0 clip_min clip_max x
   <= 2 ^ (n_bit - 1) - 1)%Z /\
  inject_Z (2 ^ (n_bit - 1) - 1) * sc == clip_max.
Proof.
  intros M.
  pose proof sym_sc_pos as P.
  pose proof (step_neq_0 sc P) as NZ.
  pose proof (sym_scale_total n_bit clip_min clip_max bits_valid) as T.
  fold sc in T. rewrite (Q.max_l _ _ M) in T.
  set (half := (2 ^ (n_bit - 1) - 1)%Z) in *.
  assert (H : inject_Z half * sc == clip_max) by lra.
  split; [|exact H].
  destruct (code1_between sc 0 clip_min clip_max P x) as [L U]; [lra|].
  assert (EU : (clip_max - 0) / sc == inject_Z half).
  { apply (Qmult_inj_r _ _ sc NZ). rewrite Qdiv_cancel by exact NZ. lra. }
  assert (EL : inject_Z (- half) <= (clip_min - 0) / sc).
  { apply Qle_shift_div_l; [exact P|]. rewrite inject_Z_opp.
    pose proof (Qle_Qabs (- clip_min)) as A. rewrite Qabs_opp in A. lra. }
  apply round_code_mono in EL. rewrite round_code_Z in EL.
  rewrite (round_code_eq _ _ EU), round_code_Z in U. lia.
Qed.

End SymmetricMore.

(** X7.  In exact arithmetic the symmetric quantizer represents zero
    exactly: with
    [n_bit >= 2] and [clip_min <= 0 <= clip_max], [clip_min < clip_max], an
    input element equal to [0] comes out as [0]. *)
Theorem X7_symmetric_zero (input : tensor) (n_bit : Z) (clip_min clip_max : Q) :
  (2 <= n_bit)%Z -> clip_min < clip_max -> clip_min <= 0 <= clip_max ->
  exists out,
    symQuantizer input n_bit clip_min clip_max = Returned out /\
    Forall2 (fun x y => x == 0 -> y == 0) input out.
Proof.
  intros Hn Hb Hz.
  pose proof (sym_sc_pos n_bit clip_min clip_max Hn Hb) as P.
  eexists. split; [apply symQuantizer_valid; assumption|].
  induction input as [| x r IH]; simpl; constructor; [|exact IH].
  intros E. unfold quant1.
  rewrite (code1_level _ 0 clip_min clip_max P x 0); [ring | lra | rewrite E; ring].
Qed.

Lemma X7_witness :
  exists out,
    symQuantizer [0; 1 # 3; 0] 4 (-1) (5 # 2) = Returned out /\
    Forall2 (fun x y => x == 0 -> y == 0) [0; 1 # 3; 0] out.
Proof.
  apply (X7_symmetric_zero [0; 1 # 3; 0] 4 (-1) (5 # 2)); [lia | lra | split; lra].
Defined.

(** X8.  In exact arithmetic, with clip bounds [-c] and [c] the symmetric
    quantizer is an odd
    function: negating every input element negates every output
    element. *)
Theorem X8_symmetric_odd (input : tensor) (n_bit : Z) (c : Q) :
  (2 <= n_bit)%Z -> 0 < c ->
  exists out out',
    symQuantizer input n_bit (- c) c = Returned out /\
    symQuantizer (map Qopp input) n_bit (- c) c = Returned out' /\
    Forall2 (fun y y' => y' == - y) out out'.
Proof.
  intros Hn Hc.
  assert (Hb : - c < c) by lra.
  pose proof (sym_sc_pos n_bit (- c) c Hn Hb) as P.
  pose proof (step_neq_0 _ P) as NZ.
  do 2 eexists.
  split; [apply symQuantizer_valid; assumption|].
  split; [apply symQuantizer_valid; assumption|].
  set (sc := (c - - Qmax c (Qabs (- c))) / (2 ^ n_bit - 2)) in *.
  induction input as [| x r IH]; simpl; constructor; [|exact IH].
  unfold quant1, code1.
  assert (E : (clamp1 (- x) (- c) c - 0) / sc == - ((clamp1 x (- c) c - 0) / sc)).
  { rewrite clamp1_opp by lra. field. exact NZ. }
  rewrite (round_code_eq _ _ E), round_code_opp, inject_Z_opp. ring.
Qed.

Lemma X8_witness :
  exists out out',
    symQuantizer [1 # 3; -2; 7] 4 (- (5 # 2)) (5 # 2) = Returned out /\
    symQuantizer (map Qopp [1 # 3; -2; 7]) 4 (- (5 # 2)) (5 # 2) = Returned out' /\
    Forall2 (fun y y' => y' == - y) out out'.
Proof.
  apply (X8_symmetric_odd [1 # 3; -2; 7] 4 (5 # 2)); [lia | lra].
Defined.

(** X9.  In exact arithmetic, when the upper clip bound has the larger
    magnitude
    ([|clip_min| <= clip_max]) the output of the symmetric quantizer lies
    in [[-clip_max, clip_max]]. *)
Theorem X9_symmetric_range (input : tensor) (n_bit : Z) (clip_min clip_max : Q) :
  (2 <= n_bit)%Z -> clip_min < clip_max -> Qabs clip_min <= clip_max ->
  exists out,
    symQuantizer input n_bit clip_min clip_max = Returned out /\
    Forall (fun y => - clip_max <= y <= clip_max) out.
Proof.
  intros Hn Hb Hm.
  pose proof (sym_sc_pos n_bit clip_min clip_max Hn Hb) as P.
  eexists. split; [apply symQuantizer_valid; assumption|].
  apply Forall_forall. intros y I.
  apply in_map_iff in I. destruct I as [x [<- _]].
  destruct (sym_code_range n_bit clip_min clip_max Hn Hb x Hm) as [[L U] T].
  set (sc := (clip_max - - Qmax clip_max (Qabs clip_min)) / (2 ^ n_bit - 2)) in *.
  unfold quant1.
  set (k := code1 sc 0 clip_min clip_max x) in *.
  set (half := (2 ^ (n_bit - 1) - 1)%Z) in *.
  rewrite Zle_Qle, inject_Z_opp in L. rewrite Zle_Qle in U.
  assert (A : inject_Z k * sc <= inject_Z half * sc)
    by (apply Qmult_le_compat_r; lra).
  assert (B : (- inject_Z half) * sc <= inject_Z k * sc)
    by (apply Qmult_le_compat_r; lra).
  assert (N : (- inject_Z half) * sc == - (inject_Z half * sc)) by ring.
  lra.
Qed.

Lemma X9_witness :
  exists out,
    symQuantizer [-4; -1; 1 # 3; 7] 4 (-1) (5 # 2) = Returned out /\
    Forall (fun y => - (5 # 2) <= y <= 5 # 2) out.
Proof.
  apply (X9_symmetric_range [-4; -1; 1 # 3; 7] 4 (-1) (5 # 2));
    [lia | lra | apply Qabs_Qle_condition; split; lra].
Defined.

(** X10.  In exact arithmetic the symmetric quantizer is idempotent for
    [n_bit >= 2] and
    [clip_min < clip_max], even though its output may leave the clip
    range. *)
Theorem X10_symmetric_idempotent
  (input : tensor) (n_bit : Z) (clip_min clip_max : Q) :
  (2 <= n_bit)%Z -> clip_min < clip_max ->
  exists once twice,
    symQuantizer input n_bit clip_min clip_max = Returned once /\
    symQuantizer once n_bit clip_min clip_max = Returned twice /\
    tensor_eq twice once.
Proof.
  intros Hn Hb.
  pose proof (sym_sc_pos n_bit clip_min clip_max Hn Hb) as P.
  do 2 eexists.
  split; [apply symQuantizer_valid; assumption|].
  split; [apply symQuantizer_valid; assumption|].
  unfold tensor_eq. rewrite map_map.
  induction input as [| x r IH]; simpl; constructor; [|exact IH].
  apply quant1_idempotent; [exact P | lra].
Qed.

Lemma X10_witness :
  exists once twice,
    symQuantizer [-4; -1; 1 # 3; 7] 4 (-1) (5 # 2) = Returned once /\
    symQuantizer once 4 (-1) (5 # 2) = Returned twice /\
    tensor_eq twice once.
Proof.
  apply (X10_symmetric_idempotent [-4; -1; 1 # 3; 7] 4 (-1) (5 # 2)); [lia | lra].
Defined.

(** X11.  In exact arithmetic, in the symmetric branch, with
    [n_bit >= 2] and
    [clip_min < clip_max], the scale is positive and an element inside
    [[clip_min, clip_max]] moves by at most half the scale. *)
Theorem X11_symmetric_error
  (input : tensor) (n_bit : Z) (clip_min clip_max : Q) :
  (2 <= n_bit)%Z -> clip_min < clip_max ->
  exists p out,
    sym_params n_bit clip_min clip_max = Returned p /\ 0 < scale p /\
    symQuantizer input n_bit clip_min clip_max = Returned out /\
    Forall2 (fun x y => clip_min <= x <= clip_max ->
                        Qabs (y - x) <= scale p / 2) input out.
Proof.
  intros Hn Hb.
  pose proof (sym_sc_pos n_bit clip_min clip_max Hn Hb) as P.
  destruct (pow2_minus_2 n_bit Hn) as [E G]. apply inject_Z_ge1 in G.
  do 2 eexists.
  split; [apply sym_params_returns; rewrite E, inject_Z_double; lra|].
  cbn [scale].
  split; [exact P|].
  split; [apply symQuantizer_valid; assumption|].
  induction input as [| x r IH]; simpl; constructor; [|exact IH].
  intros R. apply quant1_error; assumption.
Qed.

Lemma X11_witness :
  exists p out,
    sym_params 4 (-1) (5 # 2) = Returned p /\ 0 < scale p /\
    symQuantizer [-1; 1 # 3; 7] 4 (-1) (5 # 2) = Returned out /\
    Forall2 (fun x y => -1 <= x <= 5 # 2 ->
                        Qabs (y - x) <= scale p / 2) [-1; 1 # 3; 7] out.
Proof.
  apply (X11_symmetric_error [-1; 1 # 3; 7] 4 (-1) (5 # 2)); [lia | lra].
Defined.

(** ** The loop body and its annotated upper bound *)

Lemma yq_of_returns (p : qparams) (raw_i : tensor) (clip_min clip_max : Q) :
  ~ scale p == 0 ->
  yq_of p raw_i clip_min clip_max
  = Returned (map (quant1 (scale p) (zp p) clip_min clip_max) raw_i).
Proof.
  intros H. unfold yq_of, y_int_i.
  rewrite (tensor_div_returns _ _ H). cbn [bind].
  rewrite pipeline_map. reflexivity.
Qed.

Lemma any_div_returns (is_np : bool) (a b : Q) :
  ~ b == 0 -> (if is_np then np_div else py_div) a b = Returned (a / b).
Proof.
  intros H. destruct is_np; unfold np_div, py_div;
    rewrite (Qeq_bool_false _ 0 H); reflexivity.
Qed.

(** X12.  In either branch of the loop, once the branch has chosen its
    parameters with a positive scale and [clip_min <= clip_max], the
    annotated value [max_bin_i] bounds the quantized data from above, and
    it is the value every element at or above [clip_max] is mapped to. *)
Theorem X12_max_bin_bounds_output
  (asymQ : bool) (raw_i : tensor) (n_bit : Z) (clip_min clip_max : Q)
  (p : qparams) :
  clip_min <= clip_max ->
  (if asymQ then asym_params raw_i n_bit clip_max
   else sym_params n_bit clip_min clip_max) = Returned p ->
  0 < scale p ->
  exists top out,
    max_bin_i asymQ raw_i n_bit clip_min clip_max = Returned top /\
    yq_i asymQ raw_i n_bit clip_min clip_max = Returned out /\
    Forall2 (fun x y => y <= top /\ (clip_max <= x -> y == top)) raw_i out.
Proof.
  intros Hb Hp Hs.
  pose proof (step_neq_0 _ Hs) as NZ.
  do 2 eexists.
  split.
  { unfold max_bin_i. rewrite Hp. cbn [bind].
    rewrite (any_div_returns _ _ _ NZ). reflexivity. }
  split.
  { unfold yq_i. rewrite Hp. cbn [bind]. apply yq_of_returns, NZ. }
  assert (T : quant1 (scale p) (zp p) clip_min clip_max clip_max
              == round1 ((clip_max - zp p) / scale p) * scale p + zp p).
  { unfold quant1, code1, round1.
    rewrite (round_code_eq _ ((clip_max - zp p) / scale p)); [reflexivity|].
    rewrite clamp1_id by lra. reflexivity. }
  apply Forall2_map_self. intros x. split.
  - rewrite <- T, <- (quant1_clamp _ _ _ _ Hb x).
    apply quant1_mono; [exact Hs|].
    apply (clamp1_in_range clip_min clip_max x Hb).
  - intros H. rewrite <- T. apply quant1_eq.
    rewrite clamp1_above, clamp1_id by lra. reflexivity.
Qed.

Lemma X12_witness :
  exists top out,
    max_bin_i true [1 # 2; 1; 4] 4 (-5 # 2) (5 # 2) = Returned top /\
    yq_i true [1 # 2; 1; 4] 4 (-5 # 2) (5 # 2) = Returned out /\
    Forall2 (fun x y => y <= top /\ (5 # 2 <= x -> y == top)) [1 # 2; 1; 4] out.
Proof.
  apply (X12_max_bin_bounds_output true [1 # 2; 1; 4] 4 (-5 # 2) (5 # 2)
           (mk_qparams (1 # 2) 15 (8 # 60) (-4)));
    [lra | vm_compute; reflexivity | reflexivity].
Defined.

(** X13.  In exact arithmetic, in the symmetric branch, when the upper
    clip bound has the
    larger magnitude ([|clip_min| <= clip_max]) and [n_bit >= 2], the
    annotated value [max_bin_i] is [clip_max] itself. *)
Theorem X13_symmetric_max_bin
  (raw_i : tensor) (n_bit : Z) (clip_min clip_max : Q) :
  (2 <= n_bit)%Z -> clip_min < clip_max -> Qabs clip_min <= clip_max ->
  exists top,
    max_bin_i false raw_i n_bit clip_min clip_max = Returned top /\
    top == clip_max.
Proof.
  intros Hn Hb Hm.
  pose proof (sym_sc_pos n_bit clip_min clip_max Hn Hb) as P.
  pose proof (step_neq_0 _ P) as NZ.
  destruct (pow2_minus_2 n_bit Hn) as [E G]. apply inject_Z_ge1 in G.
  destruct (sym_code_range n_bit clip_min clip_max Hn Hb clip_max Hm) as [_ T].
  eexists. split.
  { unfold max_bin_i. cbn [orb].
    rewrite sym_params_returns by (rewrite E, inject_Z_double; lra).
    cbn [bind scale zp].
    rewrite (any_div_returns _ _ _ NZ). reflexivity. }
  set (sc := (clip_max - - Qmax clip_max (Qabs clip_min)) / (2 ^ n_bit - 2)) in *.
  assert (C : (clip_max - 0) / sc == inject_Z (2 ^ (n_bit - 1) - 1)).
  { apply (Qmult_inj_r _ _ sc NZ). rewrite Qdiv_cancel by exact NZ. lra. }
  unfold round1. rewrite (round_code_eq _ _ C), round_code_Z. lra.
Qed.

Lemma X13_witness :
  exists top,
    max_bin_i false [0; 1] 4 (-1) (5 # 2) = Returned top /\ top == 5 # 2.
Proof.
  apply (X13_symmetric_max_bin [0; 1] 4 (-1) (5 # 2));
    [lia | lra | apply Qabs_Qle_condition; split; lra].
Defined.



(** ** The clipping cells *)

Section MeanSquare.

Lemma sq_diff_map (f : Q -> Q) (a : tensor) :
  sq_diff a (map f a) = map (fun x => (x - f x) ^ 2) a.
Proof.
  unfold sq_diff. induction a as [| x r IH]; simpl; [reflexivity|].
  f_equal. exact IH.
Qed.

Lemma sq_zero (d : Q) : d ^ 2 == 0 <-> d == 0.
Proof.
  change (d ^ 2) with (d * d). split.
  - intros H. destruct (Qmult_integral _ _ H); assumption.
  - intros ->. ring.
Qed.

Lemma sq_le (d b : Q) : Qabs d <= b -> d ^ 2 <= b ^ 2.
Proof.
  intros H. change (d ^ 2) with (d * d). change (b ^ 2) with (b * b).
  pose proof (Qabs_nonneg d) as N.
  assert (E : d * d == Qabs d * Qabs d).
  { rewrite <- Qabs_Qmult. symmetry. apply Qabs_pos.
    pose proof (Qsqr_nonneg d) as S. exact S. }
  assert (A : Qabs d * Qabs d <= b * Qabs d)
    by (apply Qmult_le_compat_r; assumption).
  assert (B : Qabs d * b <= b * b) by (apply Qmult_le_compat_r; lra).
  lra.
Qed.

Lemma tensor_sum_nonneg (t : tensor) :
  Forall (fun v => 0 <= v) t -> 0 <= tensor_sum t.
Proof.
  induction 1 as [| v r Hv _ IH]; simpl; lra.
Qed.

Lemma tensor_sum_zero (t : tensor) :
  Forall (fun v => 0 <= v) t ->
  (tensor_sum t == 0 <-> Forall (fun v => v == 0) t).
Proof.
  induction 1 as [| v r Hv Hr IH]; simpl.
  - split; [constructor | reflexivity].
  - pose proof (tensor_sum_nonneg r Hr) as N. split.
    + intros E. constructor; [lra | apply IH; lra].
    + intros F. inversion F as [| ? ? Fv Fr]; subst.
      apply IH in Fr. lra.
Qed.

Lemma tensor_sum_le (t : tensor) (b : Q) :
  Forall (fun v => v <= b) t ->
  tensor_sum t <= inject_Z (Z.of_nat (length t)) * b.
Proof.
  induction 1 as [| v r Hv _ IH].
  - cbn [tensor_sum fold_right length Z.of_nat].
    change (inject_Z 0) with 0. lra.
  - cbn [tensor_sum fold_right length].
    rewrite Nat2Z.inj_succ. unfold Z.succ. rewrite inject_Z_succ.
    fold (tensor_sum r). lra.
Qed.

Lemma length_pos (t : tensor) : t <> [] -> 0 < inject_Z (Z.of_nat (length t)).
Proof.
  intros H. destruct t as [| x r]; [contradiction|].
  change 0 with (inject_Z 0). rewrite <- Zlt_Qlt. simpl length. lia.
Qed.

Lemma np_mean_returns (t : tensor) :
  t <> [] ->
  np_mean t = Returned (tensor_sum t / inject_Z (Z.of_nat (length t))).
Proof.
  intros H. destruct t; [contradiction | reflexivity].
Qed.

End MeanSquare.

Lemma clamp1_fixes_iff (x lo hi : Q) :
  lo <= hi -> (clamp1 x lo hi == x <-> lo <= x <= hi).
Proof.
  intros H. split.
  - intros E. rewrite <- E. apply clamp1_in_range, H.
  - apply clamp1_id.
Qed.

(** X15.  In exact arithmetic the clipping error of a non-empty array (for
    [clip_min <= clip_max]) is a non-negative number, and it is zero
    exactly when no element lies outside [[clip_min, clip_max]]. *)
Theorem X15_clip_mse_zero (raw_data : tensor) (clip_min clip_max : Q) :
  raw_data <> [] -> clip_min <= clip_max ->
  exists m,
    clip_mse raw_data clip_min clip_max = Returned m /\ 0 <= m /\
    (m == 0 <-> Forall (fun x => clip_min <= x <= clip_max) raw_data).
Proof.
  intros Hne Hb.
  unfold clip_mse, clipped_data, clamp. rewrite sq_diff_map.
  set (sq := map (fun x => (x - clamp1 x clip_min clip_max) ^ 2) raw_data).
  assert (Lsq : length sq = length raw_data) by apply length_map.
  assert (Nsq : sq <> []) by (intros E; rewrite E in Lsq; destruct raw_data; [contradiction | discriminate]).
  pose proof (length_pos sq Nsq) as LP.
  assert (NN : Forall (fun v => 0 <= v) sq).
  { apply Forall_forall. intros v I. apply in_map_iff in I.
    destruct I as [x [<- _]]. apply Qsqr_nonneg. }
  pose proof (tensor_sum_nonneg sq NN) as SN.
  eexists. split; [apply np_mean_returns, Nsq|].
  set (len := inject_Z (Z.of_nat (length sq))) in *.
  split; [apply Qle_shift_div_l; lra|].
  assert (D : tensor_sum sq / len * len == tensor_sum sq)
    by (apply Qdiv_cancel; lra).
  assert (Z1 : tensor_sum sq / len == 0 <-> tensor_sum sq == 0).
  { split; intros E.
    - rewrite E in D. lra.
    - rewrite E. unfold Qdiv. ring. }
  rewrite Z1, (tensor_sum_zero sq NN).
  unfold sq. rewrite Forall_map.
  split; intros F; apply Forall_forall; intros x I;
    rewrite Forall_forall in F; specialize (F x I); cbv beta in *.
  - apply (clamp1_fixes_iff x clip_min clip_max Hb).
    apply (proj1 (sq_zero _)) in F. lra.
  - apply (proj2 (sq_zero _)).
    apply (proj2 (clamp1_fixes_iff x clip_min clip_max Hb)) in F. lra.
Qed.

Lemma X15_witness :
  exists m,
    clip_mse [0; 3; -1] (-5 # 2) (5 # 2) = Returned m /\ 0 <= m /\
    (m == 0 <-> Forall (fun x => -5 # 2 <= x <= 5 # 2) [0; 3; -1]).
Proof.
  apply (X15_clip_mse_zero [0; 3; -1] (-5 # 2) (5 # 2)); [discriminate | lra].
Defined.

(** X16.  The error reported by [PlotAndCompare] for an input and its
    quantization, in exact arithmetic: with [n_bit >= 1], [clip_min < clip_max] and a non-empty
    input whose elements all lie in [[clip_min, clip_max]], the mean
    squared error is at most [(stepsize / 2) ** 2]. *)
Theorem X16_quantization_mse
  (input : tensor) (n_bit : Z) (clip_min clip_max : Q) :
  (1 <= n_bit)%Z -> clip_min < clip_max -> input <> [] ->
  Forall (fun x => clip_min <= x <= clip_max) input ->
  exists step input_quant mse,
    stepsize n_bit clip_min clip_max = Returned step /\
    simpleQuantizer input n_bit clip_min clip_max = Returned input_quant /\
    mse_loss input input_quant = Returned mse /\
    0 <= mse <= (step / 2) ^ 2.
Proof.
  intros Hn Hb Hne Hin.
  pose proof (asym_step_pos n_bit clip_min clip_max Hn Hb) as P.
  do 3 eexists.
  split; [apply stepsize_returns; lia|].
  split; [apply simpleQuantizer_valid; assumption|].
  set (step := (clip_max - clip_min) / (2 ^ n_bit - 1)) in *.
  unfold mse_loss. rewrite sq_diff_map.
  set (sq := map (fun x => (x - quant1 step clip_min clip_min clip_max x) ^ 2) input).
  assert (Lsq : length sq = length input) by apply length_map.
  assert (Nsq : sq <> []) by (intros E; rewrite E in Lsq; destruct input; [contradiction | discriminate]).
  pose proof (length_pos sq Nsq) as LP.
  split; [apply np_mean_returns, Nsq|].
  assert (NN : Forall (fun v => 0 <= v) sq).
  { apply Forall_forall. intros v I. apply in_map_iff in I.
    destruct I as [x [<- _]]. apply Qsqr_nonneg. }
  assert (UB : Forall (fun v => v <= (step / 2) ^ 2) sq).
  { apply Forall_forall. intros v I. apply in_map_iff in I.
    destruct I as [x [<- Ix]]. apply sq_le.
    rewrite Qabs_Qminus. apply quant1_error; [exact P|].
    rewrite Forall_forall in Hin. apply Hin, Ix. }
  pose proof (tensor_sum_nonneg sq NN) as SN.
  pose proof (tensor_sum_le sq _ UB) as SU.
  set (len := inject_Z (Z.of_nat (length sq))) in *.
  split.
  - apply Qle_shift_div_l; [exact LP | change (0 * len <= tensor_sum sq); lra].
  - apply Qle_shift_div_r; [exact LP|].
    rewrite Qmult_comm. exact SU.
Qed.

Lemma X16_witness :
  exists step input_quant mse,
    stepsize 4 (-5 # 2) (5 # 2) = Returned step /\
    simpleQuantizer [0; 1 # 7; -2] 4 (-5 # 2) (5 # 2) = Returned input_quant /\
    mse_loss [0; 1 # 7; -2] input_quant = Returned mse /\
    0 <= mse <= (step / 2) ^ 2.
Proof.
  apply (X16_quantization_mse [0; 1 # 7; -2] 4 (-5 # 2) (5 # 2));
    [lia | lra | discriminate | repeat constructor; lra].
Defined.

(** ** The table of clipped elements *)

Section Where.

Lemma where_from_In (mask : list bool) (s i : nat) :
  In i (where_from s mask)
  <-> (s <= i)%nat /\ nth_error mask (i - s) = Some true.
Proof.
  revert s. induction mask as [| b r IH]; intros s; simpl.
  - split; [tauto|]. intros [_ H]. destruct (i - s)%nat; discriminate.
  - assert (Here : i = s -> nth_error (b :: r) (i - s) = Some b).
    { intros ->. rewrite Nat.sub_diag. reflexivity. }
    assert (Later : (S s <= i)%nat ->
                    nth_error (b :: r) (i - s) = nth_error r (i - S s)).
    { intros L. replace (i - s)%nat with (S (i - S s)) by lia. reflexivity. }
    split.
    + intros H.
      assert (C : (b = true /\ i = s) \/ In i (where_from (S s) r)).
      { destruct b; simpl in H; [destruct H as [<- | H]|]; auto. }
      destruct C as [[-> ->] | C].
      * split; [lia | apply Here; reflexivity].
      * apply IH in C. destruct C as [L N].
        split; [lia | rewrite Later; assumption].
    + intros [L N].
      destruct (Nat.eq_dec i s) as [E | NE].
      * rewrite (Here E) in N. injection N as ->. left. symmetry. exact E.
      * rewrite Later in N by lia.
        assert (C : In i (where_from (S s) r)) by (apply IH; split; [lia | exact N]).
        destruct b; [right|]; exact C.
Qed.

Lemma where_from_sorted (mask : list bool) (s : nat) :
  StronglySorted lt (where_from s mask).
Proof.
  revert s. induction mask as [| b r IH]; intros s; simpl; [constructor|].
  destruct b; [|apply IH].
  constructor; [apply IH|].
  apply Forall_forall. intros i I. apply where_from_In in I. lia.
Qed.

Lemma sorted_app (a b : list nat) :
  StronglySorted lt (a ++ b) ->
  StronglySorted lt a /\ Forall (fun x => Forall (lt x) b) a.
Proof.
  induction a as [| x r IH]; simpl; intros H.
  - split; constructor.
  - inversion H as [| ? ? S F]; subst.
    destruct (IH S) as [Sr Fr].
    apply Forall_app in F. destruct F as [F1 F2].
    split; constructor; assumption.
Qed.

Lemma outside_true (lo hi x : Q) :
  outside lo hi x = true <-> hi < x \/ x < lo.
Proof.
  unfold outside. rewrite orb_true_iff, !negb_true_iff.
  assert (N : forall a b, Qle_bool a b = false <-> b < a).
  { intros a b. split.
    - intros H. apply Qnot_le_lt. intros L.
      apply Qle_bool_iff in L. congruence.
    - intros H. destruct (Qle_bool a b) eqn:E; [|reflexivity].
      apply Qle_bool_iff in E. lra. }
  rewrite !N. tauto.
Qed.

End Where.

Lemma idx_clipped_In (raw_data : tensor) (clip_min clip_max : Q) (i : nat) :
  In i (idx_clipped_elements raw_data clip_min clip_max)
  <-> exists x, nth_error raw_data i = Some x /\ (clip_max < x \/ x < clip_min).
Proof.
  unfold idx_clipped_elements, np_where, isClipped.
  rewrite where_from_In, Nat.sub_0_r, nth_error_map.
  split.
  - intros [_ H]. destruct (nth_error raw_data i) as [x |]; [|discriminate].
    exists x. split; [reflexivity|]. apply outside_true.
    simpl in H. congruence.
  - intros [x [E O]]. split; [lia|]. rewrite E. simpl.
    f_equal. apply outside_true, O.
Qed.

(** X17.  The table of clipped elements, for [clip_min <= clip_max]: it
    has at most five rows and columns of equal length, its indices are
    strictly increasing, and each row holds a valid position of the raw
    array, the raw value there, which lies outside the clip range, and as
    clipped value the bound that the raw value crossed. *)
Theorem X17_clipped_frame_rows (raw_data : tensor) (clip_min clip_max : Q) :
  clip_min <= clip_max ->
  let fr := clipped_frame raw_data clip_min clip_max in
  (length (col_idx fr) <= 5)%nat /\
  length (col_raw fr) = length (col_idx fr) /\
  length (col_clipped fr) = length (col_idx fr) /\
  StronglySorted lt (col_idx fr) /\
  (forall j i, nth_error (col_idx fr) j = Some i ->
     exists x c,
       nth_error raw_data i = Some x /\
       nth_error (col_raw fr) j = Some x /\
       nth_error (col_clipped fr) j = Some c /\
       ((x < clip_min /\ c == clip_min) \/ (clip_max < x /\ c == clip_max))).
Proof.
  intros Hb fr. unfold fr, clipped_frame. cbn [col_idx col_raw col_clipped].
  set (all := idx_clipped_elements raw_data clip_min clip_max).
  assert (Srt : StronglySorted lt all) by apply where_from_sorted.
  split; [apply firstn_le_length|].
  split; [apply length_map|].
  split; [apply length_map|].
  split.
  { rewrite <- (firstn_skipn 5 all) in Srt. apply sorted_app in Srt. tauto. }
  intros j i Hj.
  assert (I : In i all).
  { rewrite <- (firstn_skipn 5 all). apply in_or_app. left.
    apply nth_error_In with j. exact Hj. }
  apply idx_clipped_In in I. destruct I as [x [Ex O]].
  exists x, (clamp1 x clip_min clip_max).
  split; [exact Ex|].
  split.
  { unfold take. rewrite nth_error_map, Hj. simpl.
    f_equal. apply nth_error_nth. exact Ex. }
  split.
  { unfold take. rewrite nth_error_map, Hj. simpl.
    f_equal. apply nth_error_nth.
    unfold clipped_data, clamp. rewrite nth_error_map, Ex. reflexivity. }
  destruct O as [O | O].
  - right. split; [exact O | apply clamp1_above; lra].
  - left. split; [exact O | apply clamp1_below; lra].
Qed.

Lemma X17_witness :
  let fr := clipped_frame [0; 3; -4; 1; 5] (-5 # 2) (5 # 2) in
  (length (col_idx fr) <= 5)%nat /\
  length (col_raw fr) = length (col_idx fr) /\
  length (col_clipped fr) = length (col_idx fr) /\
  StronglySorted lt (col_idx fr) /\
  (forall j i, nth_error (col_idx fr) j = Some i ->
     exists x c,
       nth_error [0; 3; -4; 1; 5] i = Some x /\
       nth_error (col_raw fr) j = Some x /\
       nth_error (col_clipped fr) j = Some c /\
       ((x < -5 # 2 /\ c == -5 # 2) \/ (5 # 2 < x /\ c == 5 # 2))).
Proof.
  apply (X17_clipped_frame_rows [0; 3; -4; 1; 5] (-5 # 2) (5 # 2)). lra.
Defined.

(** X18.  The table lists the first clipped elements: a position of the
    raw array whose value lies outside the clip range is either listed, or
    the table is full (five rows) and all listed positions come before
    it. *)
Theorem X18_clipped_frame_complete
  (raw_data : tensor) (clip_min clip_max : Q) (i : nat) (x : Q) :
  nth_error raw_data i = Some x -> clip_max < x \/ x < clip_min ->
  let fr := clipped_frame raw_data clip_min clip_max in
  In i (col_idx fr) \/
  (length (col_idx fr) = 5%nat /\ Forall (fun i' => (i' < i)%nat) (col_idx fr)).
Proof.
  intros Ex O fr. unfold fr, clipped_frame. cbn [col_idx].
  set (all := idx_clipped_elements raw_data clip_min clip_max).
  assert (I : In i all) by (apply idx_clipped_In; exists x; tauto).
  assert (Srt : StronglySorted lt all) by apply where_from_sorted.
  rewrite <- (firstn_skipn 5 all) in I, Srt.
  apply in_app_or in I. destruct I as [I | I]; [left; exact I | right].
  apply sorted_app in Srt. destruct Srt as [_ F].
  split.
  - apply firstn_length_le.
    destruct (Nat.le_gt_cases 5 (length all)) as [ok | short]; [exact ok|].
    rewrite skipn_all2 in I by lia. destruct I.
  - apply Forall_forall. intros i' I'.
    rewrite Forall_forall in F. specialize (F i' I').
    rewrite Forall_forall in F. apply F, I.
Qed.

Lemma X18_witness :
  let fr := clipped_frame [3; -4; 1; 5; 6; 7; 8; 9] (-5 # 2) (5 # 2) in
  In 7%nat (col_idx fr) \/
  (length (col_idx fr) = 5%nat /\ Forall (fun i' => (i' < 7)%nat) (col_idx fr)).
Proof.
  apply (X18_clipped_frame_complete [3; -4; 1; 5; 6; 7; 8; 9]
           (-5 # 2) (5 # 2) 7 9); [reflexivity | left; lra].
Defined.

(** ** Minimum and maximum of the clipped tensor *)

Section Extremes.

Variable f : Q -> Q.
Hypothesis f_mono : forall x y, x <= y -> f x <= f y.
Hypothesis f_eq : forall x y, x == y -> f x == f y.

Lemma min_commutes (b y : Q) : Qmin (f b) (f y) == f (Qmin b y).
Proof.
  destruct (Qlt_le_dec y b) as [L | L].
  - rewrite Q.min_r by (apply f_mono; lra).
    apply f_eq. symmetry. apply Q.min_r. lra.
  - rewrite Q.min_l by (apply f_mono; exact L).
    apply f_eq. symmetry. apply Q.min_l. exact L.
Qed.

Lemma max_commutes (b y : Q) : Qmax (f b) (f y) == f (Qmax b y).
Proof.
  destruct (Qlt_le_dec y b) as [L | L].
  - rewrite Q.max_l by (apply f_mono; lra).
    apply f_eq. symmetry. apply Q.max_l. lra.
  - rewrite Q.max_r by (apply f_mono; exact L).
    apply f_eq. symmetry. apply Q.max_r. exact L.
Qed.

Lemma fold_min_map (r : tensor) (a b : Q) :
  a == f b -> fold_left Qmin (map f r) a == f (fold_left Qmin r b).
Proof.
  revert a b. induction r as [| y r IH]; intros a b E; simpl; [exact E|].
  apply IH. rewrite E. apply min_commutes.
Qed.

Lemma fold_max_map (r : tensor) (a b : Q) :
  a == f b -> fold_left Qmax (map f r) a == f (fold_left Qmax r b).
Proof.
  revert a b. induction r as [| y r IH]; intros a b E; simpl; [exact E|].
  apply IH. rewrite E. apply max_commutes.
Qed.

End Extremes.

Lemma clamp1_eq (lo hi x y : Q) : x == y -> clamp1 x lo hi == clamp1 y lo hi.
Proof.
  intros E. unfold clamp1. rewrite E. reflexivity.
Qed.

(** X19.  For a non-empty array and [clip_min <= clip_max], the minimum of
    the clipped tensor is the clipped minimum of the raw tensor, the
    maximum is the clipped maximum, and both lie in
    [[clip_min, clip_max]]. *)
Theorem X19_clipped_min_max (raw_data : tensor) (clip_min clip_max : Q) :
  raw_data <> [] -> clip_min <= clip_max ->
  exists lo hi clo chi,
    np_min raw_data = Returned lo /\ np_max raw_data = Returned hi /\
    np_min (clipped_data raw_data clip_min clip_max) = Returned clo /\
    np_max (clipped_data raw_data clip_min clip_max) = Returned chi /\
    clo == clamp1 lo clip_min clip_max /\
    chi == clamp1 hi clip_min clip_max /\
    clip_min <= clo <= clip_max /\ clip_min <= chi <= clip_max.
Proof.
  intros Hne Hb. destruct raw_data as [| x r]; [contradiction|].
  do 4 eexists.
  do 4 (split; [reflexivity|]).
  assert (A : fold_left Qmin (map (fun v => clamp1 v clip_min clip_max) r)
                (clamp1 x clip_min clip_max)
              == clamp1 (fold_left Qmin r x) clip_min clip_max).
  { apply (fold_min_map (fun v => clamp1 v clip_min clip_max)).
    - intros; apply clamp1_mono; assumption.
    - intros; apply clamp1_eq; assumption.
    - reflexivity. }
  assert (B : fold_left Qmax (map (fun v => clamp1 v clip_min clip_max) r)
                (clamp1 x clip_min clip_max)
              == clamp1 (fold_left Qmax r x) clip_min clip_max).
  { apply (fold_max_map (fun v => clamp1 v clip_min clip_max)).
    - intros; apply clamp1_mono; assumption.
    - intros; apply clamp1_eq; assumption.
    - reflexivity. }
  split; [exact A|]. split; [exact B|].
  split.
  - change (fold_left Qmin (map (fun v => clamp1 v clip_min clip_max) r)
              (clamp1 x clip_min clip_max))
      with (fold_left Qmin (clamp r clip_min clip_max) (clamp1 x clip_min clip_max)) in A.
    rewrite A. apply clamp1_in_range, Hb.
  - change (fold_left Qmax (map (fun v => clamp1 v clip_min clip_max) r)
              (clamp1 x clip_min clip_max))
      with (fold_left Qmax (clamp r clip_min clip_max) (clamp1 x clip_min clip_max)) in B.
    rewrite B. apply clamp1_in_range, Hb.
Qed.

Lemma X19_witness :
  exists lo hi clo chi,
    np_min [0; 3; -4; 1] = Returned lo /\ np_max [0; 3; -4; 1] = Returned hi /\
    np_min (clipped_data [0; 3; -4; 1] (-5 # 2) (5 # 2)) = Returned clo /\
    np_max (clipped_data [0; 3; -4; 1] (-5 # 2) (5 # 2)) = Returned chi /\
    clo == clamp1 lo (-5 # 2) (5 # 2) /\
    chi == clamp1 hi (-5 # 2) (5 # 2) /\
    -5 # 2 <= clo <= 5 # 2 /\ -5 # 2 <= chi <= 5 # 2.
Proof.
  apply (X19_clipped_min_max [0; 3; -4; 1] (-5 # 2) (5 # 2)); [discriminate | lra].
Defined.

(** ** The bound on the number of levels is attained *)

Lemma unique_length_inj (g : nat -> Q) (l : list nat) :
  NoDup l ->
  (forall i j, In i l -> In j l -> g i == g j -> i = j) ->
  length (unique (map g l)) = length l.
Proof.
  induction 1 as [| x r Nx Nr IH]; intros Inj; simpl; [reflexivity|].
  assert (E : existsb (Qeq_bool (g x)) (unique (map g r)) = false).
  { destruct (existsb (Qeq_bool (g x)) (unique (map g r))) eqn:B; [|reflexivity].
    exfalso. apply existsb_exists in B. destruct B as [y [Iy Ey]].
    apply unique_subset, in_map_iff in Iy. destruct Iy as [j [<- Ij]].
    apply Qeq_bool_iff in Ey.
    assert (x = j) by (apply Inj; simpl; auto).
    subst j. contradiction. }
  rewrite E. simpl. f_equal.
  apply IH. intros i j Ii Ij. apply Inj; simpl; auto.
Qed.

(** X20.  The count [2 ** n_bit] that the notebook prints as expected is
    attained in exact arithmetic: with [n_bit >= 1] and [clip_min < clip_max], quantizing the
    dequantized codes [0, 1, ..., 2^n_bit - 1] returns exactly [2^n_bit]
    distinct values. *)
Theorem X20_all_levels_attained (n_bit : Z) (clip_min clip_max : Q) :
  (1 <= n_bit)%Z -> clip_min < clip_max ->
  exists step out,
    stepsize n_bit clip_min clip_max = Returned step /\
    simpleQuantizer
      (yq (map (fun i => inject_Z (Z.of_nat i)) (seq 0 (Z.to_nat (2 ^ n_bit))))
          step clip_min)
      n_bit clip_min clip_max = Returned out /\
    distinct_count out = (2 ^ n_bit)%Z.
Proof.
  intros Hn Hb.
  pose proof (asym_step_pos n_bit clip_min clip_max Hn Hb) as P.
  pose proof (asym_step_total n_bit clip_min clip_max Hn) as T.
  destruct (pow2_minus_1 n_bit Hn) as [_ G].
  do 2 eexists.
  split; [apply stepsize_returns; lia|].
  split; [apply simpleQuantizer_valid; assumption|].
  set (step := (clip_max - clip_min) / (2 ^ n_bit - 1)) in *.
  pose proof (step_neq_0 step P) as NZ.
  unfold distinct_count, yq, tensor_add, tensor_mul. rewrite !map_map.
  set (g := fun i : nat =>
              quant1 step clip_min clip_min clip_max
                (inject_Z (Z.of_nat i) * step + clip_min)).
  assert (Fix : forall i, In i (seq 0 (Z.to_nat (2 ^ n_bit))) ->
                  g i == inject_Z (Z.of_nat i) * step + clip_min).
  { intros i I. apply in_seq in I.
    assert (K1 : inject_Z (Z.of_nat i) <= inject_Z (2 ^ n_bit - 1))
      by (rewrite <- Zle_Qle; lia).
    assert (K0 : inject_Z 0 <= inject_Z (Z.of_nat i))
      by (rewrite <- Zle_Qle; lia).
    set (k := inject_Z (Z.of_nat i)) in *.
    assert (A : inject_Z 0 * step <= k * step)
      by (apply Qmult_le_compat_r; lra).
    assert (B : k * step <= inject_Z (2 ^ n_bit - 1) * step)
      by (apply Qmult_le_compat_r; lra).
    assert (Z0 : inject_Z 0 * step == 0) by ring.
    unfold g, quant1.
    rewrite (code1_level step clip_min clip_min clip_max P _ (Z.of_nat i));
      [reflexivity | fold k; lra | reflexivity]. }
  rewrite (unique_length_inj g).
  - rewrite length_seq. lia.
  - apply seq_NoDup.
  - intros i j Ii Ij E.
    rewrite (Fix i Ii), (Fix j Ij) in E.
    assert (D : inject_Z (Z.of_nat i) * step == inject_Z (Z.of_nat j) * step) by lra.
    apply Qmult_inj_r in D; [|exact NZ].
    apply Nat2Z.inj. apply (inject_Z_injective _ _). exact D.
Qed.

Lemma X20_witness :
  exists step out,
    stepsize 3 (-1) 6 = Returned step /\
    simpleQuantizer
      (yq (map (fun i => inject_Z (Z.of_nat i)) (seq 0 (Z.to_nat (2 ^ 3))))
          step (-1))
      3 (-1) 6 = Returned out /\
    distinct_count out = (2 ^ 3)%Z.
Proof.
  apply (X20_all_levels_attained 3 (-1) 6); [lia | lra].
Defined.
